(** * DynamicForm.tsx: the JSON form generator

    A shallow embedding of [src/DynamicForm.tsx]: the [RenderForm]
    component, the [updateNested] path update and the three handlers of
    [JsonFormGenerator], over a store of JavaScript objects.

    Layout of the development:
    - [Js]:     the built-ins the component calls on strings and numbers
                ([split], [replace], [parseInt], [parseFloat]);
    - [Store]:  the object store (arrays with holes, plain objects),
                [typeof], truthiness, spreads, property reads and writes,
                in a state and error monad;
    - [Form]:   [RenderForm], [updateNested] and the handlers;
    - [Tree]:   the [DynamicValue] type of the source as a tree, the
                snapshot of a stored value and deep equality;
    - [Inv], [Shape], [Sample]: well-formed stores, the shapes of the
                renderer, sample documents;
    - [Keys], [Reach], [Session], [Demo]: plain keys, the node a path
                reaches, the events of the page, more samples;
    - [StoreFacts], [UpdateFacts], [TreeFacts]: the lemmas;
    - the properties of the specification, each under its claim;
    - further properties of the renderer, the update and the page. *)

From Stdlib Require Import ZArith NArith String Ascii List Bool Lia.
From Stdlib Require Import Decimal DecimalString DecimalPos DecimalN.
From Stdlib Require Import Floats.SpecFloat.
From stdpp Require Import base option list.

Local Open Scope string_scope.
Local Open Scope list_scope.

(* ===================================================================== *)
(** * The built-ins                                                       *)
(* ===================================================================== *)

Module Js.

(** ** Numbers

    A JavaScript number is an IEEE-754 binary64 value: [spec_float] with
    a 53 bit mantissa and exponents up to 1024.  NaN carries no payload. *)

Definition number : Type := spec_float.

Definition prec : Z := 53.
Definition emax : Z := 1024.

Definition NaN : number := S754_nan.
Definition zero : number := S754_zero false.

(** The number nearest to an integer (ties to even). *)
Definition of_Z (z : Z) : number := binary_normalize prec emax z 0 false.

(** The number nearest to [m * 10^e], for a literal with digits [m]. *)
Definition of_decimal (neg : bool) (m : N) (e : Z) : number :=
  match m with
  | N0 => S754_zero neg
  | Npos p =>
      match e with
      | Zneg k =>
          SFdiv prec emax (S754_finite neg p 0)
                          (S754_finite false (Pos.pow 10 k) 0)
      | _ => binary_round prec emax neg (p * Z.to_pos (10 ^ e)) 0
      end
  end.

(** ToBoolean on a number: [0], [-0] and [NaN] are falsy. *)
Definition number_truthy (n : number) : bool :=
  match n with
  | S754_zero _ | S754_nan => false
  | _ => true
  end.

(** ** Characters *)

Definition is_digit (c : ascii) : bool :=
  let n := N_of_ascii c in ((48 <=? n) && (n <=? 57))%N.

Definition digit_value (c : ascii) : N := (N_of_ascii c - 48)%N.

(** Value of a hexadecimal digit, [None] for any other character. *)
Definition hex_value (c : ascii) : option N :=
  let n := N_of_ascii c in
  if ((48 <=? n) && (n <=? 57))%N then Some (n - 48)%N
  else if ((97 <=? n) && (n <=? 102))%N then Some (n - 87)%N
  else if ((65 <=? n) && (n <=? 70))%N then Some (n - 55)%N
  else None.

(** White space skipped by [parseInt] and [parseFloat]: TAB, LF, VT, FF,
    CR and SPACE.  (The white space outside ASCII is not modelled: a
    string is a sequence of 8 bit characters here.) *)
Definition is_space (c : ascii) : bool :=
  let n := N_of_ascii c in (((9 <=? n) && (n <=? 13)) || (n =? 32))%N.

Fixpoint trim_start (s : string) : string :=
  match s with
  | String c r => if is_space c then trim_start r else s
  | EmptyString => s
  end.

(** ** [String.prototype.split] on the pattern [/\.|\[/] *)

Definition is_separator (c : ascii) : bool :=
  (Ascii.eqb c "." || Ascii.eqb c "[")%char.

Fixpoint split (s : string) : list string :=
  match s with
  | EmptyString => [EmptyString]
  | String c r =>
      if is_separator c then EmptyString :: split r
      else match split r with
           | tok :: toks => String c tok :: toks
           | [] => [String c EmptyString]
           end
  end.

(** ** [String.prototype.replace("]", "")]: the first ["]"] only *)

Fixpoint replace_bracket (s : string) : string :=
  match s with
  | EmptyString => EmptyString
  | String c r => if Ascii.eqb c "]" then r else String c (replace_bracket r)
  end.

(** ** Decimal text of a natural number (template literals, ToString) *)

Definition dec (n : N) : string := NilZero.string_of_uint (N.to_uint n).

Definition dec_nat (n : nat) : string := dec (N.of_nat n).

(** ** [parseInt(s)], radix absent

    [None] is NaN.  The integer is kept exact: the rounding of an integer
    beyond 2^53 to the nearest double is not modelled; it changes the
    name of a property that is not an array index, nothing else. *)

(** The leading digits of [s] in base [radix], most significant first,
    accumulated onto [acc]; [seen] tells whether a digit was read. *)
Fixpoint read_digits (radix : N) (s : string) (acc : N) (seen : bool)
  : option N :=
  match s with
  | String c r =>
      match hex_value c with
      | Some d =>
          if (d <? radix)%N then read_digits radix r (acc * radix + d)%N true
          else if seen then Some acc else None
      | None => if seen then Some acc else None
      end
  | EmptyString => if seen then Some acc else None
  end.

Definition strip_sign (s : string) : bool * string :=
  match s with
  | String "-" r => (true, r)
  | String "+" r => (false, r)
  | _ => (false, s)
  end.

Definition parseInt (s : string) : option Z :=
  let '(neg, s1) := strip_sign (trim_start s) in
  let '(radix, s2) :=
    match s1 with
    | String "0" (String "x" r) | String "0" (String "X" r) => (16%N, r)
    | _ => (10%N, s1)
    end in
  match read_digits radix s2 0%N false with
  | Some n => Some (if neg then (- Z.of_N n)%Z else Z.of_N n)
  | None => None
  end.

(** The property name a [parseInt] result is converted to when it is
    used in [current[parseInt(key)]]. *)
Definition index_name (i : option Z) : string :=
  match i with
  | None => "NaN"
  | Some (Zneg p) => "-" ++ dec (Npos p)
  | Some z => dec (Z.to_N z)
  end.

(** A property name that is the canonical text of an array index, an
    integer in [0, 2^32 - 2]. *)
Definition array_index_of_name (k : string) : option N :=
  match NilZero.uint_of_string k with
  | Some u =>
      let n := N.of_uint u in
      if (String.eqb (dec n) k && (n <? 4294967295)%N)%bool then Some n
      else None
  | None => None
  end.

(** ** [parseFloat(s)]

    The longest prefix of the trimmed text that is a decimal literal:
    sign, then [Infinity] or digits with an optional fraction and an
    optional exponent; NaN when there is none. *)

(** Splits off the leading decimal digits: their value, their count and
    the rest of the text. *)
Fixpoint take_digits (s : string) (acc : N) (count : nat)
  : N * nat * string :=
  match s with
  | String c r =>
      if is_digit c then take_digits r (acc * 10 + digit_value c)%N (S count)
      else (acc, count, s)
  | EmptyString => (acc, count, s)
  end.

(** The exponent part [e[+-]digits] at the head of [s], 0 when absent. *)
Definition exponent_part (s : string) : Z :=
  match s with
  | String c r =>
      if (Ascii.eqb c "e" || Ascii.eqb c "E")%char then
        let '(neg, r1) := strip_sign r in
        let '(n, count, _) := take_digits r1 0%N 0 in
        match count with
        | O => 0%Z
        | S _ => if neg then (- Z.of_N n)%Z else Z.of_N n
        end
      else 0%Z
  | EmptyString => 0%Z
  end.

Definition parseFloat (s : string) : number :=
  let '(neg, s1) := strip_sign (trim_start s) in
  if String.prefix "Infinity" s1 then S754_infinity neg
  else
    let '(int_part, int_count, s2) := take_digits s1 0%N 0 in
    let '(mant, frac_count, s3) :=
      match s2 with
      | String "." r =>
          let '(m, total, r') := take_digits r int_part int_count in
          (m, total - int_count, r')
      | _ => (int_part, 0, s2)
      end in
    match int_count + frac_count with
    | O => NaN
    | S _ => of_decimal neg mant (exponent_part s3 - Z.of_nat frac_count)
    end.

End Js.

(* ===================================================================== *)
(** * The object store                                                    *)
(* ===================================================================== *)

Module Store.

(** A location of the store. *)
Abbreviation loc := nat (only parsing).

(** A JavaScript value: a primitive or a reference to an object. *)
Inductive value : Type :=
| VUndefined
| VNull
| VBool (b : bool)
| VNum (n : Js.number)
| VStr (s : string)
| VRef (l : loc).

(** An array has its elements (a hole is [None]) and the own properties
    whose names are not array indices; a plain object has its own
    properties in creation order.  The members inherited from
    [Object.prototype] and [Array.prototype] are not modelled. *)
Inductive object : Type :=
| Arr (elems : list (option value)) (extra : list (string * value))
| Obj (props : list (string * value)).

(** The store: the object at location [l] is the [l]-th of the list. *)
Abbreviation heap := (list object) (only parsing).

Record Error : Type := { name : string; message : string }.

Definition TypeError (msg : string) : Error :=
  {| name := "TypeError"; message := msg |}.

(** A reference to a location that holds no object: impossible in
    JavaScript, kept apart from the errors a program can raise. *)
Definition Dangling : Error :=
  {| name := "Dangling"; message := "reference outside the store" |}.

Inductive outcome (A : Type) : Type :=
| Returned (a : A) (h : heap)
| Thrown (e : Error).
Arguments Returned {A} a h.
Arguments Thrown {A} e.

(** Computations that read and extend the store and may throw. *)
Definition M (A : Type) : Type := heap → outcome A.

#[global] Instance M_ret : MRet M := λ A a h, Returned a h.

#[global] Instance M_bind : MBind M := λ A B f m h,
  match m h with
  | Returned a h' => f a h'
  | Thrown e => Thrown e
  end.

Definition throw {A : Type} (e : Error) : M A := λ _, Thrown e.

(** ** Tests on values *)

Definition typeof (v : value) : string :=
  match v with
  | VUndefined => "undefined"
  | VNull => "object"
  | VBool _ => "boolean"
  | VNum _ => "number"
  | VStr _ => "string"
  | VRef _ => "object"
  end.

Definition is_null (v : value) : bool :=
  match v with VNull => true | _ => false end.

(** ToBoolean, as in [if (formData)] and [x || 0]. *)
Definition truthy (v : value) : bool :=
  match v with
  | VUndefined | VNull => false
  | VBool b => b
  | VNum n => Js.number_truthy n
  | VStr s => negb (String.eqb s "")
  | VRef _ => true
  end.

Definition isArray (h : heap) (v : value) : bool :=
  match v with
  | VRef l => match h !! l with Some (Arr _ _) => true | _ => false end
  | _ => false
  end.

Definition Array_isArray (v : value) : M bool := λ h, Returned (isArray h v) h.

(** ** Property lists *)

Section Props.
Context {A : Type}.

Fixpoint assoc (k : string) (ps : list (string * A)) : option A :=
  match ps with
  | [] => None
  | (k', a) :: r => if String.eqb k' k then Some a else assoc k r
  end.

(** [o[k] = a] on own properties: an existing property keeps its
    place, a new one is created last. *)
Fixpoint assign (k : string) (a : A) (ps : list (string * A))
  : list (string * A) :=
  match ps with
  | [] => [(k, a)]
  | (k', a') :: r =>
      if String.eqb k' k then (k', a) :: r else (k', a') :: assign k a r
  end.

Fixpoint insert_sorted (n : N) (e : string * A)
  (l : list (N * (string * A))) : list (N * (string * A)) :=
  match l with
  | [] => [(n, e)]
  | (m, e') :: r =>
      if (n <? m)%N then (n, e) :: l else (m, e') :: insert_sorted n e r
  end.

Fixpoint index_entries (ps : list (string * A))
  : list (N * (string * A)) :=
  match ps with
  | [] => []
  | (k, a) :: r =>
      match Js.array_index_of_name k with
      | Some n => insert_sorted n (k, a) (index_entries r)
      | None => index_entries r
      end
  end.

Definition named_entries (ps : list (string * A)) : list (string * A) :=
  filter (λ e, Js.array_index_of_name e.1 = None) ps.

(** The order of [Object.keys] and of a spread: array indices in
    ascending order, then the other names in creation order. *)
Definition own_order (ps : list (string * A)) : list (string * A) :=
  (snd <$> index_entries ps) ++ named_entries ps.

(** The elements of an array that are not holes, with their index. *)
Fixpoint present_from (i : nat) (es : list (option A)) : list (nat * A) :=
  match es with
  | [] => []
  | Some a :: r => (i, a) :: present_from (S i) r
  | None :: r => present_from (S i) r
  end.

Definition present (es : list (option A)) : list (nat * A) :=
  present_from 0 es.

(** [arr[i] = a]: in range the element is replaced, past the end the
    array grows and the gap is left as holes. *)
Definition store_elem (i : nat) (a : A) (es : list (option A))
  : list (option A) :=
  if decide (i < length es) then <[i := Some a]> es
  else es ++ replicate (i - length es) None ++ [Some a].
End Props.

Fixpoint chars_from (i : nat) (s : string) : list (string * value) :=
  match s with
  | EmptyString => []
  | String c r => (Js.dec_nat i, VStr (String c EmptyString)) :: chars_from (S i) r
  end.

(** Own enumerable properties of an object, in key order. *)
Definition entries_of (o : object) : list (string * value) :=
  match o with
  | Arr elems extra =>
      ((λ e, (Js.dec_nat e.1, e.2)) <$> present elems) ++ own_order extra
  | Obj props => own_order props
  end.

(** ** Allocation, spreads, reads and writes *)

Definition alloc (o : object) : M value := λ h,
  Returned (VRef (length h)) (h ++ [o]).

Definition deref (l : loc) : M object := λ h,
  match h !! l with
  | Some o => Returned o h
  | None => Thrown Dangling
  end.

Definition write (l : loc) (o : object) : M unit := λ h,
  Returned () (<[l := o]> h).

(** [{ ...v }]: a new plain object with the own enumerable properties
    of [v]; nothing for [undefined], [null], a number or a boolean. *)
Definition object_spread (v : value) : M value :=
  match v with
  | VRef l => o ← deref l; alloc (Obj (entries_of o))
  | VStr s => alloc (Obj (chars_from 0 s))
  | _ => alloc (Obj [])
  end.

(** [[...v]]: a new array with the elements of [v], a hole read as
    [undefined]; only an iterable can be spread. *)
Definition array_spread (v : value) : M value :=
  match v with
  | VRef l =>
      o ← deref l;
      match o with
      | Arr elems _ => alloc (Arr ((λ e, Some (default VUndefined e)) <$> elems) [])
      | Obj _ => throw (TypeError "object is not iterable")
      end
  | VStr s => alloc (Arr ((λ e, Some e.2) <$> chars_from 0 s) [])
  | _ => throw (TypeError "value is not iterable")
  end.

Definition lookup_prop (o : object) (k : string) : value :=
  match o with
  | Arr elems extra =>
      match Js.array_index_of_name k with
      | Some i => default VUndefined (mjoin (elems !! N.to_nat i))
      | None => default VUndefined (assoc k extra)
      end
  | Obj props => default VUndefined (assoc k props)
  end.

Definition update_prop (o : object) (k : string) (x : value) : object :=
  match o with
  | Arr elems extra =>
      match Js.array_index_of_name k with
      | Some i => Arr (store_elem (N.to_nat i) x elems) extra
      | None => Arr elems (assign k x extra)
      end
  | Obj props => Obj (assign k x props)
  end.

(** [v[k]] on an object; reading a property of [undefined] or [null]
    throws.  (The members of the wrappers of the other primitives are
    not modelled: the program reads properties of objects only.) *)
Definition get (v : value) (k : string) : M value :=
  match v with
  | VRef l => o ← deref l; mret (lookup_prop o k)
  | VUndefined | VNull => throw (TypeError "cannot read properties of undefined or null")
  | _ => mret VUndefined
  end.

(** [v[k] = x] on an object. *)
Definition set (v : value) (k : string) (x : value) : M unit :=
  match v with
  | VRef l => o ← deref l; write l (update_prop o k x)
  | _ => throw (TypeError "cannot set properties of a primitive")
  end.

End Store.

(* ===================================================================== *)
(** * The component                                                       *)
(* ===================================================================== *)

Module Form.
Import Store.

(** ** [RenderForm] *)

(** The props of a [<RenderForm>] element.  [onChange] is the one
    handler of the page, handed down unchanged, and is left out. *)
Record RenderFormProps : Type := { value_of : value; path_of : string }.

(** The arguments of a call [onChange(newValue, path)]. *)
Definition edit : Type := (value * string)%type.

(** What [RenderForm] returns.  A control carries its label, its current
    value and its change handler, from the text or the checked state of
    the event to the edit it reports; a container carries the
    [<RenderForm>] elements of its children, which React renders in
    turn; the placeholder carries the path only. *)
Inductive element : Type :=
| TextControl (label : string) (text : string) (onChange : string → edit)
| NumberControl (label : string) (n : Js.number) (onChange : string → edit)
| CheckControl (label : string) (checked : bool) (onChange : bool → edit)
| ListGroup (label : string) (items : list (nat * RenderFormProps))
| Accordion (header : string) (body : list (string * RenderFormProps))
| Unsupported (path : string).

(** [a || b] *)
Definition or_else (a b : value) : value := if truthy a then a else b.

Definition updateValue (path : string) (newVal : value) : edit :=
  (newVal, path).

Definition RenderForm (h : heap) (props : RenderFormProps) : element :=
  let value := value_of props in
  let path := path_of props in
  match value with
  | VStr s => TextControl path s (λ text, updateValue path (VStr text))
  | VNum n =>
      NumberControl path n
        (λ text, updateValue path
                   (or_else (VNum (Js.parseFloat text)) (VNum (Js.of_Z 0))))
  | VBool b => CheckControl path b (λ checked, updateValue path (VBool checked))
  | VRef l =>
      match h !! l with
      | Some (Arr elems _) =>
          ListGroup path
            ((λ e, (e.1, {| value_of := e.2;
                            path_of := path ++ "[" ++ Js.dec_nat e.1 ++ "]" |}))
               <$> present elems)
      | Some (Obj ps as o) =>
          let keys := fst <$> entries_of o in
          Accordion path
            ((λ key, (key, {| value_of := lookup_prop o key;
                              path_of := path ++ "." ++ key |}))
               <$> keys)
      | None => Unsupported path
      end
  | VUndefined | VNull => Unsupported path
  end.

(** ** [updateNested] *)

(** One turn of the [for] loop, on the token [paths[i]].  *)
Definition descend (current : value) (token : string) : M value :=
  let key := Js.replace_bracket token in
  isArr ← Array_isArray current;
  if isArr : bool then
    current ← array_spread current;
    let index := Js.index_name (Js.parseInt key) in
    child ← get current index;
    copy ← object_spread child;
    set current index copy;;
    get current index
  else
    current ← object_spread current;
    child ← get current key;
    copy ← object_spread child;
    set current key copy;;
    get current key.

(** The loop over [paths[0 .. length - 2]]. *)
Fixpoint walk (tokens : list string) (current : value) : M value :=
  match tokens with
  | [] => mret current
  | token :: rest => next ← descend current token; walk rest next
  end.

Definition updateNested (obj : value) (p : string) (val : value) : M value :=
  if (negb (String.eqb (typeof obj) "object") || is_null obj)%bool then mret val
  else
    let paths := Js.split p in
    current ← walk (removelast paths) obj;
    let lastKey := Js.replace_bracket (List.last paths "") in
    isArr ← Array_isArray current;
    if isArr : bool then
      arr ← array_spread current;
      set arr (Js.index_name (Js.parseInt lastKey)) val;;
      mret arr
    else
      objCopy ← object_spread current;
      set objCopy lastKey val;;
      mret objCopy.

(** ** [JsonFormGenerator] *)

(** The three state cells; [null] is [VNull] for the data and [None]
    for the error. *)
Record State : Type :=
  { jsonString : string; formData : value; error : option string }.

Definition initial : State :=
  {| jsonString := ""; formData := VNull; error := None |}.

Definition setFormData (v : value) (st : State) : State :=
  {| jsonString := jsonString st; formData := v; error := error st |}.

Definition setError (e : option string) (st : State) : State :=
  {| jsonString := jsonString st; formData := formData st; error := e |}.

Section Handlers.
(** [JSON.parse] and [JSON.stringify(_, null, 2)] belong to the
    platform.  A parse returns a value in an extended store or throws
    a [SyntaxError]. *)
Variable JSON_parse : string → M value.
Variable JSON_stringify : heap → value → string.

Definition handleParseJson (st : State) (h : heap) : State * heap :=
  match JSON_parse (jsonString st) h with
  | Returned parsed h' => (setError None (setFormData parsed st), h')
  | Thrown err =>
      (setFormData VNull
         (setError (Some ("Invalid JSON: " ++ message err)%string) st), h)
  end.

Definition handleFormChange (st : State) (newValue : value) (path : string)
  : M State :=
  if truthy (formData st) then
    next ← updateNested (formData st) path newValue;
    mret (setFormData next st)
  else mret st.

(** The text written to the console, if any. *)
Definition handleJsonOutput (st : State) (h : heap) : option string :=
  if truthy (formData st) then Some (JSON_stringify h (formData st))
  else None.
End Handlers.

(** What the page shows: the alert of [{error && ...}] and the value of
    [{formData && ...}], which is the falsy [formData] itself or the
    preview with its [<RenderForm>] element. *)
Record Page : Type :=
  { alert : option string; preview : value + RenderFormProps }.

Definition JsonFormGenerator (st : State) : Page :=
  {| alert :=
       match error st with
       | Some msg => if String.eqb msg "" then None else Some msg
       | None => None
       end;
     preview :=
       if truthy (formData st)
       then inr {| value_of := formData st; path_of := "root" |}
       else inl (formData st) |}.

End Form.

(* ===================================================================== *)
(** * Values as trees                                                     *)
(* ===================================================================== *)

Module Tree.
Import Store.

(** The type [DynamicValue] of the source, with [null] and [undefined],
    which a parsed document and a read of a missing slot bring in, and
    with the holes an array can have. *)
#[local] Unset Elimination Schemes.
Inductive DynamicValue : Type :=
| DUndefined
| DNull
| DString (s : string)
| DNumber (n : Js.number)
| DBoolean (b : bool)
| DArray (items : list (option DynamicValue))
| DObject (fields : list (string * DynamicValue)).
#[local] Set Elimination Schemes.

(** The tree a value stands for in a store: an array by its elements, a
    plain object by its own properties in key order.  [fuel] bounds the
    depth; [None] when it runs out or a reference leaves the store. *)
Fixpoint snapshot (fuel : nat) (h : heap) (v : value) : option DynamicValue :=
  match v with
  | VUndefined => Some DUndefined
  | VNull => Some DNull
  | VStr s => Some (DString s)
  | VNum n => Some (DNumber n)
  | VBool b => Some (DBoolean b)
  | VRef l =>
      match fuel with
      | O => None
      | S fuel' =>
          match h !! l with
          | Some (Arr elems _) =>
              DArray <$>
                mapM (λ e : option value,
                        match e with
                        | Some x => Some <$> snapshot fuel' h x
                        | None => Some None
                        end) elems
          | Some (Obj props) =>
              DObject <$>
                mapM (λ e : string * value,
                        (λ t, (e.1, t)) <$> snapshot fuel' h e.2)
                     (own_order props)
          | None => None
          end
      end
  end.

(** Two numbers are the same value; [0] and [-0] are not told apart. *)
Definition same_number (a b : Js.number) : bool :=
  match a, b with
  | S754_zero _, S754_zero _ => true
  | S754_nan, S754_nan => true
  | S754_infinity s, S754_infinity s' => Bool.eqb s s'
  | S754_finite s m e, S754_finite s' m' e' =>
      (Bool.eqb s s' && Pos.eqb m m' && Z.eqb e e')%bool
  | _, _ => false
  end.

(** Deep equality: scalars by value, arrays element by element (a hole
    reads as [undefined]), objects key by key whatever the order. *)
Fixpoint deep_equal (a b : DynamicValue) {struct a} : bool :=
  match a, b with
  | DUndefined, DUndefined => true
  | DNull, DNull => true
  | DString s, DString s' => String.eqb s s'
  | DNumber n, DNumber n' => same_number n n'
  | DBoolean x, DBoolean x' => Bool.eqb x x'
  | DArray xs, DArray ys =>
      (fix all2 (xs : list (option DynamicValue))
                (ys : list (option DynamicValue)) : bool :=
         match xs, ys with
         | [], [] => true
         | x :: xs', y :: ys' =>
             (match x with
              | Some x' => deep_equal x' (default DUndefined y)
              | None =>
                  match default DUndefined y with
                  | DUndefined => true
                  | _ => false
                  end
              end && all2 xs' ys')%bool
         | _, _ => false
         end) xs ys
  | DObject fa, DObject fb =>
      (Nat.eqb (length fa) (length fb) &&
       (fix all (fa : list (string * DynamicValue)) : bool :=
          match fa with
          | [] => true
          | (k, x) :: r =>
              (match assoc k fb with
               | Some y => deep_equal x y
               | None => false
               end && all r)%bool
          end) fa)%bool
  | _, _ => false
  end.

End Tree.

(* ===================================================================== *)
(** * Well-formed stores, shapes and sample documents                     *)
(* ===================================================================== *)

Module Inv.
Import Store.

(** A value lies in the first [n] locations of the store. *)
Definition value_in (n : nat) (v : value) : Prop :=
  match v with
  | VRef l => l < n
  | _ => True
  end.

Definition props_in (n : nat) (ps : list (string * value)) : Prop :=
  Forall (λ e, value_in n e.2) ps.

Definition elems_in (n : nat) (es : list (option value)) : Prop :=
  Forall (λ e, from_option (value_in n) True e) es.

Definition object_in (n : nat) (o : object) : Prop :=
  match o with
  | Arr elems extra => elems_in n elems ∧ props_in n extra
  | Obj props => props_in n props
  end.

(** Every reference held by an object of the store points into the
    store: the stores a JavaScript program can build. *)
Definition closed (h : heap) : Prop := Forall (object_in (length h)) h.

(** A bare scalar: a string, a number or a boolean. *)
Definition scalar (v : value) : Prop :=
  match v with
  | VStr _ | VNum _ | VBool _ => True
  | _ => False
  end.

(** A falsy scalar: [0] or [-0], [false], the empty string. *)
Definition falsy_scalar (v : value) : Prop :=
  (∃ s, v = VNum (S754_zero s)) ∨ v = VBool false ∨ v = VStr "".

(** The object has an own property named [root]. *)
Definition has_own_root (o : object) : Prop :=
  match o with
  | Obj ps => is_Some (assoc "root" ps)
  | Arr _ _ => False
  end.

(** No tree: the form data before the first parse. *)
Definition absent (v : value) : Prop := v = VNull.
End Inv.

Module Shape.
Import Store Form.

(** The six presentations of the renderer. *)
Inductive shape : Type :=
| SString | SNumber | SBoolean | SSequence | SMapping | SUnsupported.

(** The shape of a value by the probes of [RenderForm], in their order:
    the first that succeeds decides. *)
Definition shape_of (h : heap) (v : value) : shape :=
  if String.eqb (typeof v) "string" then SString
  else if String.eqb (typeof v) "number" then SNumber
  else if String.eqb (typeof v) "boolean" then SBoolean
  else if isArray h v then SSequence
  else if (String.eqb (typeof v) "object" && negb (is_null v))%bool then SMapping
  else SUnsupported.

Definition presentation (e : element) : shape :=
  match e with
  | TextControl _ _ _ => SString
  | NumberControl _ _ _ => SNumber
  | CheckControl _ _ _ => SBoolean
  | ListGroup _ _ => SSequence
  | Accordion _ _ => SMapping
  | Unsupported _ => SUnsupported
  end.

(** The path an element is shown with. *)
Definition label_of (e : element) : string :=
  match e with
  | TextControl p _ _ | NumberControl p _ _ | CheckControl p _ _
  | ListGroup p _ | Accordion p _ | Unsupported p => p
  end.

(** The [<RenderForm>] elements nested in an element. *)
Definition children (e : element) : list RenderFormProps :=
  match e with
  | ListGroup _ items => snd <$> items
  | Accordion _ body => snd <$> body
  | _ => []
  end.

(** The [<RenderForm>] elements React renders for a document: the one
    of the page, at ["root"], and the children of a rendered one. *)
Inductive rendered (h : heap) (root : value) : RenderFormProps → Prop :=
| rendered_root : rendered h root {| value_of := root; path_of := "root" |}
| rendered_child parent child :
    rendered h root parent →
    child ∈ children (RenderForm h parent) →
    rendered h root child.

(** The edits an element can report: none for a container or for the
    placeholder. *)
Definition reports (e : element) (ed : edit) : Prop :=
  match e with
  | TextControl _ _ f | NumberControl _ _ f => ∃ text, f text = ed
  | CheckControl _ _ f => ∃ checked, f checked = ed
  | _ => False
  end.
End Shape.

Module Sample.
Import Store Form Tree.

Definition num (z : Z) : value := VNum (Js.of_Z z).

(** [{"a": 1, "b": 2}] at location 0. *)
Definition store_ab : heap := [Obj [("a", num 1); ("b", num 2)]].

(** [{"arr": ["a", "b"]}] at location 1, its array at location 0. *)
Definition store_arr : heap :=
  [Arr [Some (VStr "a"); Some (VStr "b")] []; Obj [("arr", VRef 0)]].

(** [{"a": {"b": 1}}] at location 1, its inner mapping at location 0. *)
Definition store_nested : heap :=
  [Obj [("b", num 1)]; Obj [("a", VRef 0)]].

(** [{"a": 1, "b": [true, "x"], "c": {"d": null}}] at location 2. *)
Definition store_doc : heap :=
  [Arr [Some (VBool true); Some (VStr "x")] [];
   Obj [("d", VNull)];
   Obj [("a", num 1); ("b", VRef 0); ("c", VRef 1)]].

(** A parser that rejects every text, with the diagnostic of the
    platform for the text ["{invalid"]. *)
Definition rejecting : string → M value := λ _,
  throw {| name := "SyntaxError";
           message := "Expected property name or '}' in JSON at position 1" |}.

(** The state after [{"a": 1, "b": 2}] was parsed and ["{invalid"] was
    typed in the text area. *)
Definition edited : State :=
  {| jsonString := "{invalid"; formData := VRef 0; error := None |}.

(** The state after the text ["0"] was parsed. *)
Definition parsed_zero : State :=
  {| jsonString := "0"; formData := num 0; error := None |}.

(** The tree of the value an update returned. *)
Definition result_tree (r : outcome value) : option DynamicValue :=
  match r with
  | Returned v h => snapshot (length h) h v
  | Thrown _ => None
  end.
End Sample.

(* ===================================================================== *)
(** * Keys, the node a path reaches, and sessions                         *)
(* ===================================================================== *)

Module Keys.

(** Every character of a text passes a test. *)
Fixpoint all_chars (P : ascii → bool) (s : string) : bool :=
  match s with
  | EmptyString => true
  | String c r => P c && all_chars P r
  end.



End Keys.

Module Reach.
Import Store.




End Reach.

Module Session.
Import Store Form Inv.

(** [setJsonString], the change handler of the text area. *)
Definition setJsonString (text : string) (st : State) : State :=
  {| jsonString := text; formData := formData st; error := error st |}.

(** What the user can do on the page: type in the text area, click
    "Parse and Generate Form", change a field (the call
    [onChange(newValue, path)] a control makes), click "Output Updated
    JSON". *)
Inductive Event : Type :=
| Typed (text : string)
| ParseClicked
| Changed (newValue : value) (path : string)
| OutputClicked.

Section Wiring.
Variable JSON_parse : string → M value.

(** The handler the page has wired to an event.  The output action
    writes to the console and leaves the state alone. *)
Definition step (st : State) (ev : Event) : M State :=
  match ev with
  | Typed text => mret (setJsonString text st)
  | ParseClicked => λ h,
      let (st', h') := handleParseJson JSON_parse st h in Returned st' h'
  | Changed newValue path => handleFormChange st newValue path
  | OutputClicked => mret st
  end.

(** One event after the other, each handler run to its end. *)
Fixpoint run (events : list Event) (st : State) : M State :=
  match events with
  | [] => mret st
  | ev :: rest => st' ← step st ev; run rest st'
  end.
End Wiring.

(** What a parser of the platform does: it throws, or returns a value
    in a store that extends the one it was given and is well formed. *)
Definition parser_ok (JSON_parse : string → M value) : Prop :=
  ∀ text h, closed h →
    match JSON_parse text h with
    | Returned v h' => (∃ k, h' = h ++ k) ∧ closed h' ∧ value_in (length h') v
    | Thrown _ => True
    end.

(** A change event that carries a string, a number or a boolean, as the
    controls report, not a reference. *)
Definition reports_scalar (ev : Event) : Prop :=
  match ev with
  | Changed (VRef _) _ => False
  | _ => True
  end.

End Session.

Module Demo.
Import Store Form Sample.

(** A parser for two texts, the empty array and the number five. *)
Definition small_parse (text : string) : M value :=
  if String.eqb text "[]" then alloc (Arr [] [])
  else if String.eqb text "5" then mret (VNum (Js.of_Z 5))
  else throw {| name := "SyntaxError"; message := "Unexpected token" |}.


(** The state after the text ["5"] was parsed. *)
Definition parsed_five : State :=
  {| jsonString := "5"; formData := num 5; error := None |}.

End Demo.

(* ===================================================================== *)
(** * Facts about property lists and objects                              *)
(* ===================================================================== *)

Module StoreFacts.
Import Store Inv.

Section Props.
Context {A : Type}.
Implicit Types (ps : list (string * A)) (es : list (option A)).

Lemma assoc_assign k a ps : assoc k (assign k a ps) = Some a.
Proof.
  induction ps as [|[k' a'] r IH]; simpl.
  - by rewrite String.eqb_refl.
  - destruct (String.eqb k' k) eqn:E; simpl; rewrite E; [done | apply IH].
Qed.

Lemma assoc_elem k a ps : assoc k ps = Some a → (k, a) ∈ ps.
Proof.
  induction ps as [|[k' a'] r IH]; simpl; [done |].
  destruct (String.eqb k' k) eqn:E.
  - apply String.eqb_eq in E as ->. intros [= ->]. apply list_elem_of_here.
  - intros H. apply list_elem_of_further, IH, H.
Qed.

Lemma assoc_is_Some k a ps : (k, a) ∈ ps → is_Some (assoc k ps).
Proof.
  induction ps as [|[k' a'] r IH]; [by intros ?%elem_of_nil |].
  simpl. destruct (String.eqb k' k) eqn:E; [by eexists |].
  intros [[= -> ->]|Hr]%elem_of_cons; [|by apply IH].
  by rewrite String.eqb_refl in E.
Qed.

Lemma assign_Forall (P : string * A → Prop) k a ps :
  Forall P ps → (∀ k', P (k', a)) → Forall P (assign k a ps).
Proof.
  intros Hps Ha. induction Hps as [|[k' a'] r Hx Hr IH]; simpl.
  - by constructor.
  - destruct (String.eqb k' k); constructor; auto.
Qed.

Lemma elem_of_insert_sorted n e (l : list (N * (string * A))) x :
  x ∈ insert_sorted n e l → x = (n, e) ∨ x ∈ l.
Proof.
  induction l as [|[m e'] r IH]; simpl.
  - intros ->%list_elem_of_singleton. by left.
  - destruct (n <? m)%N.
    + intros [->|H]%elem_of_cons; [by left | by right].
    + intros [->|H]%elem_of_cons.
      * right. apply list_elem_of_here.
      * destruct (IH H) as [->|H']; [by left |].
        right. by apply list_elem_of_further.
Qed.

Lemma elem_of_insert_sorted_2 n e (l : list (N * (string * A))) x :
  x = (n, e) ∨ x ∈ l → x ∈ insert_sorted n e l.
Proof.
  induction l as [|[m e'] r IH]; simpl.
  - intros [->|H]; [apply list_elem_of_here | by apply elem_of_nil in H].
  - destruct (n <? m)%N.
    + intros [->|H]; [apply list_elem_of_here | by apply list_elem_of_further].
    + intros [->|[->|H]%elem_of_cons].
      * apply list_elem_of_further, IH. by left.
      * apply list_elem_of_here.
      * apply list_elem_of_further, IH. by right.
Qed.

Lemma elem_of_index_entries ps x : x ∈ index_entries ps → x.2 ∈ ps.
Proof.
  induction ps as [|[k a] r IH]; simpl; [by intros ?%elem_of_nil |].
  destruct (Js.array_index_of_name k) as [n|].
  - intros [->|H]%elem_of_insert_sorted; simpl.
    + apply list_elem_of_here.
    + by apply list_elem_of_further, IH.
  - intros H. by apply list_elem_of_further, IH.
Qed.

Lemma elem_of_own_order ps e : e ∈ own_order ps → e ∈ ps.
Proof.
  unfold own_order, named_entries.
  intros [H|H]%elem_of_app.
  - apply list_elem_of_fmap in H as (x & -> & Hx).
    by apply elem_of_index_entries.
  - by apply list_elem_of_filter in H as [_ H].
Qed.

(** Every own property is enumerated. *)
Lemma own_order_complete ps e : e ∈ ps → e ∈ own_order ps.
Proof.
  unfold own_order, named_entries. intros He. apply elem_of_app.
  destruct (Js.array_index_of_name e.1) as [n|] eqn:E.
  - left. apply list_elem_of_fmap. exists (n, e). split; [done |].
    induction ps as [|[k a] r IH]; [by apply elem_of_nil in He |].
    simpl. apply elem_of_cons in He as [->|He].
    + simpl in E. rewrite E. apply elem_of_insert_sorted_2. by left.
    + destruct (Js.array_index_of_name k).
      * apply elem_of_insert_sorted_2. right. by apply IH.
      * by apply IH.
  - right. apply list_elem_of_filter. by split.
Qed.

(** A name that is not an own property is not enumerated. *)
Lemma assoc_own_order_None k ps :
  assoc k ps = None → assoc k (own_order ps) = None.
Proof.
  intros Hnone. destruct (assoc k (own_order ps)) as [a|] eqn:E; [|done].
  apply assoc_elem, elem_of_own_order in E.
  destruct (assoc_is_Some _ _ _ E) as [a' Ha']. congruence.
Qed.

Lemma own_order_Forall (P : string * A → Prop) ps :
  Forall P ps → Forall P (own_order ps).
Proof.
  rewrite !Forall_forall. intros H e He. by apply H, elem_of_own_order.
Qed.

Lemma elem_of_present_from i es x :
  x ∈ present_from i es ↔ ∃ j, x.1 = i + j ∧ es !! j = Some (Some x.2).
Proof.
  revert i. induction es as [|[a|] r IH]; intros i; simpl.
  - split; [by intros ?%elem_of_nil | by intros (j & _ & ?)].
  - rewrite elem_of_cons, IH. split.
    + intros [->|(j & Hj & Hl)]; simpl.
      * exists 0. split; [lia | done].
      * exists (S j). split; [lia | done].
    + intros ([|j] & Hj & Hl); simpl in Hl.
      * left. destruct x as [x1 x2]; simpl in *.
        injection Hl as ->. f_equal. lia.
      * right. exists j. split; [lia | done].
  - rewrite IH. split.
    + intros (j & Hj & Hl). exists (S j). split; [lia | done].
    + intros ([|j] & Hj & Hl); simpl in Hl; [done |].
      exists j. split; [lia | done].
Qed.

(** The enumerated elements of an array are those that are not
    holes, each under its index. *)
Lemma elem_of_present es i a :
  (i, a) ∈ present es ↔ es !! i = Some (Some a).
Proof.
  unfold present. rewrite elem_of_present_from. simpl. split.
  - by intros (j & -> & H).
  - intros H. by exists i.
Qed.

Lemma store_elem_lookup i a es : store_elem i a es !! i = Some (Some a).
Proof.
  unfold store_elem. case_decide as Hi.
  - by apply list_lookup_insert_eq.
  - rewrite lookup_app_r by lia. rewrite lookup_app_r.
    + rewrite length_replicate. by replace (_ - _ - _) with 0 by lia.
    + rewrite length_replicate. lia.
Qed.

Lemma store_elem_past_end i a es :
  length es ≤ i →
  store_elem i a es = es ++ replicate (i - length es) None ++ [Some a].
Proof. intros Hi. unfold store_elem. case_decide; [lia | done]. Qed.

Lemma store_elem_length i a es :
  length (store_elem i a es) = max (length es) (S i).
Proof.
  unfold store_elem. case_decide as Hi.
  - rewrite length_insert. lia.
  - rewrite !length_app, length_replicate. simpl. lia.
Qed.

Lemma store_elem_Forall (P : option A → Prop) i a es :
  Forall P es → P (Some a) → P None → Forall P (store_elem i a es).
Proof.
  intros Hes Ha Hn. unfold store_elem. case_decide.
  - by apply Forall_insert.
  - apply Forall_app_2; [done |]. apply Forall_app_2.
    + by apply Forall_replicate.
    + by constructor.
Qed.
End Props.

Lemma value_in_mono n m v : n ≤ m → value_in n v → value_in m v.
Proof. destruct v; simpl; auto. lia. Qed.

Lemma props_in_mono n m ps : n ≤ m → props_in n ps → props_in m ps.
Proof.
  intros Hle Hps. eapply Forall_impl; [exact Hps |].
  intros e. by apply value_in_mono.
Qed.

Lemma elems_in_mono n m es : n ≤ m → elems_in n es → elems_in m es.
Proof.
  intros Hle Hes. eapply Forall_impl; [exact Hes |].
  intros [v|]; simpl; [|done]. by apply value_in_mono.
Qed.

Lemma object_in_mono n m o : n ≤ m → object_in n o → object_in m o.
Proof.
  intros Hle. destruct o; simpl.
  - intros [He Hp]. split; [by eapply elems_in_mono | by eapply props_in_mono].
  - by apply props_in_mono.
Qed.

Lemma chars_from_in n i s : props_in n (chars_from i s).
Proof.
  revert i. induction s as [|c r IH]; intros i; simpl; constructor; [done | apply IH].
Qed.

Lemma entries_of_in n o : object_in n o → props_in n (entries_of o).
Proof.
  destruct o as [es ex|ps]; simpl.
  - intros [He Hx]. apply Forall_app_2.
    + apply Forall_fmap, Forall_forall. intros [i a] Hi. simpl.
      apply elem_of_present in Hi.
      unfold elems_in in He. rewrite Forall_lookup in He.
      apply (He _ _ Hi).
    + by apply own_order_Forall.
  - by apply own_order_Forall.
Qed.

Lemma lookup_prop_in n o k : object_in n o → value_in n (lookup_prop o k).
Proof.
  assert (Hassoc : ∀ ps, props_in n ps → value_in n (default VUndefined (assoc k ps))).
  { intros ps Hps. destruct (assoc k ps) as [a|] eqn:E; simpl; [|done].
    apply assoc_elem in E. unfold props_in in Hps.
    rewrite Forall_forall in Hps. apply (Hps _ E). }
  destruct o as [es ex|ps]; simpl; [|apply Hassoc].
  intros [He Hx]. destruct (Js.array_index_of_name k) as [i|]; [|by apply Hassoc].
  destruct (es !! N.to_nat i) as [[a|]|] eqn:E; simpl; try done.
  unfold elems_in in He. rewrite Forall_lookup in He. apply (He _ _ E).
Qed.

Lemma update_prop_in n o k x :
  object_in n o → value_in n x → object_in n (update_prop o k x).
Proof.
  intros Ho Hx. destruct o as [es ex|ps]; simpl in *.
  - destruct Ho as [He Hp]. destruct (Js.array_index_of_name k); simpl.
    + split; [|done]. by apply store_elem_Forall.
    + split; [done |]. by apply assign_Forall.
  - by apply assign_Forall.
Qed.

(** A property reads back the value just assigned to it. *)
Lemma lookup_update_prop o k x : lookup_prop (update_prop o k x) k = x.
Proof.
  destruct o as [es ex|ps]; simpl.
  - destruct (Js.array_index_of_name k) as [i|] eqn:E; simpl; rewrite E.
    + by rewrite store_elem_lookup.
    + by rewrite assoc_assign.
  - by rewrite assoc_assign.
Qed.

Lemma closed_lookup h l o : closed h → h !! l = Some o → object_in (length h) o.
Proof. unfold closed. rewrite Forall_lookup. eauto. Qed.

Lemma closed_extend h os :
  closed h → Forall (object_in (length h + length os)) os → closed (h ++ os).
Proof.
  intros Hh Hos. unfold closed. rewrite length_app. apply Forall_app_2; [|done].
  eapply Forall_impl; [exact Hh |]. intros o. apply object_in_mono. lia.
Qed.

End StoreFacts.

(* ===================================================================== *)
(** * The update runs to its end and only extends the store               *)
(* ===================================================================== *)

Module UpdateFacts.
Import Store Form Inv StoreFacts.

(** ** Steps on the store *)

Lemma bind_returned {A B : Type} (m : M A) (f : A → M B) h a h' :
  m h = Returned a h' → (m ≫= f) h = f a h'.
Proof. intros H. unfold mbind, M_bind. by rewrite H. Qed.

Lemma lookup_fresh (h : heap) o r : (h ++ o :: r) !! length h = Some o.
Proof. by apply list_lookup_middle. Qed.

Lemma insert_fresh (h : heap) o o' r :
  <[length h := o']> (h ++ o :: r) = h ++ o' :: r.
Proof.
  replace (length h) with (length h + 0) at 1 by lia.
  by rewrite insert_app_r.
Qed.

Lemma snoc_snoc (h : heap) o1 o2 : (h ++ [o1]) ++ [o2] = h ++ [o1; o2].
Proof. by rewrite <- app_assoc. Qed.

Lemma length_snoc (h : heap) o : length (h ++ [o]) = S (length h).
Proof. rewrite length_app. simpl. lia. Qed.

Lemma lookup_second (h : list object) o1 o2 :
  (h ++ [o1; o2]) !! S (length h) = Some o2.
Proof.
  rewrite <- snoc_snoc, <- (length_snoc h o1). apply lookup_fresh.
Qed.

Lemma closed_snoc h o : closed h → object_in (length h) o → closed (h ++ [o]).
Proof.
  intros Hh Ho. apply closed_extend; [done |]. constructor; [|done].
  eapply object_in_mono; [|exact Ho]. lia.
Qed.

Lemma deref_fresh h o r : deref (length h) (h ++ o :: r) = Returned o (h ++ o :: r).
Proof. unfold deref. by rewrite lookup_fresh. Qed.

Lemma deref_at h l o : h !! l = Some o → deref l h = Returned o h.
Proof. intros Hl. unfold deref. by rewrite Hl. Qed.

Lemma array_spread_at h l es ex :
  h !! l = Some (Arr es ex) →
  array_spread (VRef l) h
  = Returned (VRef (length h))
      (h ++ [Arr ((λ e, Some (default VUndefined e)) <$> es) []]).
Proof.
  intros Hl. unfold array_spread.
  by rewrite (bind_returned _ _ _ _ _ (deref_at _ _ _ Hl)).
Qed.

Lemma object_spread_at h l o :
  h !! l = Some o →
  object_spread (VRef l) h = Returned (VRef (length h)) (h ++ [Obj (entries_of o)]).
Proof.
  intros Hl. unfold object_spread.
  by rewrite (bind_returned _ _ _ _ _ (deref_at _ _ _ Hl)).
Qed.

Lemma get_fresh h o r k :
  get (VRef (length h)) k (h ++ o :: r) = Returned (lookup_prop o k) (h ++ o :: r).
Proof.
  unfold get. by rewrite (bind_returned _ _ _ _ _ (deref_fresh h o r)).
Qed.

Lemma set_fresh h o r k x :
  set (VRef (length h)) k x (h ++ o :: r) = Returned () (h ++ update_prop o k x :: r).
Proof.
  unfold set. rewrite (bind_returned _ _ _ _ _ (deref_fresh h o r)).
  unfold write. by rewrite insert_fresh.
Qed.

(** ** Tokens and index names *)

Lemma split_nonempty s : 1 ≤ length (Js.split s).
Proof.
  destruct s as [|c r]; simpl; [lia |].
  destruct (Js.is_separator c); simpl; [lia |].
  destruct (Js.split r); simpl; lia.
Qed.

Lemma split_root c b :
  Js.is_separator c = true → Js.split ("root" ++ String c b) = "root" :: Js.split b.
Proof.
  intros Hc. simpl. rewrite Hc. reflexivity.
Qed.

Lemma removelast_nonempty {A : Type} (l : list A) :
  2 ≤ length l → removelast l ≠ [].
Proof. destruct l as [|a [|b r]]; simpl; [lia | lia | done]. Qed.

Lemma removelast_cons {A : Type} (a : A) l : l ≠ [] → removelast (a :: l) = a :: removelast l.
Proof. by destruct l. Qed.

Lemma last_cons {A : Type} (a d : A) l : l ≠ [] → List.last (a :: l) d = List.last l d.
Proof. by destruct l. Qed.

(** The decimal text of an array index names that index. *)
Lemma array_index_of_name_dec n :
  (n < 4294967295)%N → Js.array_index_of_name (Js.dec n) = Some n.
Proof.
  intros Hn. unfold Js.array_index_of_name, Js.dec.
  rewrite NilZero.usu.
  - rewrite DecimalN.Unsigned.of_to, String.eqb_refl. simpl.
    by apply N.ltb_lt in Hn as ->.
  - destruct n as [|p]; [done | apply DecimalPos.Unsigned.to_uint_nonnil].
Qed.

Lemma index_name_of_nat i :
  Js.index_name (Some (Z.of_nat i)) = Js.dec_nat i.
Proof.
  unfold Js.index_name, Js.dec_nat.
  destruct (Z.of_nat i) eqn:E; try lia; f_equal; lia.
Qed.

(** ** The update returns and extends the store *)

(** [{ ...v }] allocates one plain object. *)
Lemma object_spread_returns h v :
  closed h → value_in (length h) v →
  ∃ ps, object_spread v h = Returned (VRef (length h)) (h ++ [Obj ps])
        ∧ props_in (length h) ps.
Proof.
  intros Hh Hv. destruct v as [| | b | n | s | l]; simpl;
    try (exists []; split; [done | constructor]).
  - exists (chars_from 0 s). split; [done | apply chars_from_in].
  - simpl in Hv. apply lookup_lt_is_Some_2 in Hv as [o Ho].
    exists (entries_of o). split.
    + erewrite bind_returned; [|unfold deref; by rewrite Ho]. done.
    + apply entries_of_in. by eapply closed_lookup.
Qed.

(** [[...v]] on an array allocates one array without extra properties. *)
Lemma array_spread_returns h v :
  closed h → isArray h v = true →
  ∃ es, array_spread v h = Returned (VRef (length h)) (h ++ [Arr es []])
        ∧ elems_in (length h) es.
Proof.
  intros Hh Hv. destruct v as [| | b | n | s | l]; simpl in Hv; try done.
  destruct (h !! l) as [[es ex|ps]|] eqn:Ho; try done.
  exists ((λ e, Some (default VUndefined e)) <$> es). split.
  - simpl. erewrite bind_returned; [|unfold deref; by rewrite Ho]. done.
  - pose proof (closed_lookup _ _ _ Hh Ho) as [He _].
    apply Forall_fmap. eapply Forall_impl; [exact He |].
    by intros [x|].
Qed.

(** The four statements that end a turn of the loop, on the copy just
    allocated: the child is copied into a fresh plain object, which
    replaces it in the copy and becomes [current]. *)
Lemma copy_child h o k :
  let current := VRef (length h) in
  closed h → object_in (length h) o →
  ∃ ps,
    (child ← get current k;
     copy ← object_spread child;
     set current k copy;;
     get current k) (h ++ [o])
    = Returned (VRef (S (length h)))
        (h ++ [update_prop o k (VRef (S (length h))); Obj ps])
    ∧ closed (h ++ [update_prop o k (VRef (S (length h))); Obj ps]).
Proof.
  intros current Hh Ho. subst current.
  assert (Hh1 : closed (h ++ [o])) by by apply closed_snoc.
  assert (Hchild : value_in (length (h ++ [o])) (lookup_prop o k)).
  { eapply value_in_mono; [|by apply lookup_prop_in]. rewrite length_snoc. lia. }
  destruct (object_spread_returns _ _ Hh1 Hchild) as (ps & Hspread & Hps).
  rewrite length_snoc, snoc_snoc in Hspread. rewrite length_snoc in Hps.
  exists ps. split.
  - erewrite bind_returned;
      [|unfold get; erewrite bind_returned; [done | apply deref_fresh]].
    erewrite bind_returned; [|exact Hspread].
    erewrite bind_returned;
      [|unfold set; erewrite bind_returned; [|apply deref_fresh];
        unfold write; by rewrite insert_fresh].
    unfold get. erewrite bind_returned; [|apply deref_fresh].
    by rewrite lookup_update_prop.
  - apply closed_extend; [done |]. simpl.
    constructor; [|constructor; [|done]].
    + apply update_prop_in; [|simpl; lia].
      eapply object_in_mono; [|exact Ho]. lia.
    + simpl. eapply props_in_mono; [|exact Hps]. lia.
Qed.

(** One turn of the loop allocates two objects and moves to the second,
    a plain object. *)
Lemma descend_returns h current token :
  closed h → value_in (length h) current →
  ∃ o ps,
    descend current token h
    = Returned (VRef (S (length h))) (h ++ [o; Obj ps])
    ∧ closed (h ++ [o; Obj ps]).
Proof.
  intros Hh Hcur. unfold descend.
  erewrite bind_returned; [|reflexivity].
  destruct (isArray h current) eqn:Harr.
  - destruct (array_spread_returns _ _ Hh Harr) as (es & Hspread & Hes).
    erewrite bind_returned; [|exact Hspread].
    destruct (copy_child h (Arr es []) (Js.index_name (Js.parseInt (Js.replace_bracket token))) Hh)
      as (ps & Hrun & Hclosed); [split; [done | constructor] |].
    eauto.
  - destruct (object_spread_returns _ _ Hh Hcur) as (ps0 & Hspread & Hps0).
    erewrite bind_returned; [|exact Hspread].
    destruct (copy_child h (Obj ps0) (Js.replace_bracket token) Hh Hps0)
      as (ps & Hrun & Hclosed).
    eauto.
Qed.

(** The loop returns, in a store that extends the one it started in. *)
Lemma walk_returns tokens h current :
  closed h → value_in (length h) current →
  ∃ last k,
    walk tokens current h = Returned last (h ++ k)
    ∧ closed (h ++ k) ∧ value_in (length (h ++ k)) last.
Proof.
  revert h current. induction tokens as [|token rest IH]; intros h current Hh Hcur.
  - exists current, []. simpl. rewrite app_nil_r. by unfold mret, M_ret.
  - destruct (descend_returns h current token Hh Hcur) as (o & ps & Hrun & Hclosed).
    destruct (IH (h ++ [o; Obj ps]) (VRef (S (length h))) Hclosed)
      as (last & k & Hwalk & Hk & Hlast).
    { simpl. rewrite length_app. simpl. lia. }
    exists last, ([o; Obj ps] ++ k). rewrite app_assoc. split; [|done].
    simpl. erewrite bind_returned; [|exact Hrun]. exact Hwalk.
Qed.

(** The last assignment, on a copy of the container the loop ended in. *)
Lemma final_write_returns h current lastKey val :
  closed h → value_in (length h) current → value_in (length h) val →
  ∃ o,
    (isArr ← Array_isArray current;
     if isArr : bool then
       arr ← array_spread current;
       set arr (Js.index_name (Js.parseInt lastKey)) val;;
       mret arr
     else
       objCopy ← object_spread current;
       set objCopy lastKey val;;
       mret objCopy) h
    = Returned (VRef (length h)) (h ++ [o])
    ∧ closed (h ++ [o]).
Proof.
  intros Hh Hcur Hval.
  erewrite bind_returned; [|reflexivity].
  destruct (isArray h current) eqn:Harr.
  - destruct (array_spread_returns _ _ Hh Harr) as (es & Hspread & Hes).
    exists (update_prop (Arr es []) (Js.index_name (Js.parseInt lastKey)) val).
    split.
    + erewrite bind_returned; [|exact Hspread].
      erewrite bind_returned;
        [|unfold set; erewrite bind_returned; [|apply deref_fresh];
          unfold write; by rewrite insert_fresh].
      done.
    + apply closed_snoc; [done |].
      apply update_prop_in; [|done]. split; [done | constructor].
  - destruct (object_spread_returns _ _ Hh Hcur) as (ps & Hspread & Hps).
    exists (update_prop (Obj ps) lastKey val). split.
    + erewrite bind_returned; [|exact Hspread].
      erewrite bind_returned;
        [|unfold set; erewrite bind_returned; [|apply deref_fresh];
          unfold write; by rewrite insert_fresh].
      done.
    + apply closed_snoc; [done |]. by apply update_prop_in.
Qed.

(** [updateNested] returns, whatever the path, and the store it leaves
    is the store it was called in followed by the objects it created. *)
Lemma updateNested_returns h obj p val :
  closed h → value_in (length h) obj → value_in (length h) val →
  ∃ r k,
    updateNested obj p val h = Returned r (h ++ k)
    ∧ closed (h ++ k) ∧ value_in (length (h ++ k)) r.
Proof.
  intros Hh Hobj Hval. unfold updateNested.
  destruct (negb (String.eqb (typeof obj) "object") || is_null obj)%bool.
  - exists val, []. rewrite app_nil_r. by unfold mret, M_ret.
  - destruct (walk_returns (removelast (Js.split p)) h obj Hh Hobj)
      as (last & k & Hwalk & Hk & Hlast).
    erewrite bind_returned; [|exact Hwalk].
    destruct (final_write_returns (h ++ k) last
                (Js.replace_bracket (List.last (Js.split p) "")) val Hk Hlast)
      as (o & Hrun & Hclosed).
    { eapply value_in_mono; [|exact Hval]. rewrite length_app. lia. }
    exists (VRef (length (h ++ k))), (k ++ [o]). rewrite app_assoc.
    split; [exact Hrun | split; [done |]].
    simpl. rewrite length_snoc. lia.
Qed.

(** ** The container the update returns *)

(** After at least one turn the loop ends in a fresh plain object. *)
Lemma walk_ends_in_mapping tokens h current :
  tokens ≠ [] → closed h → value_in (length h) current →
  ∃ l ps k,
    walk tokens current h = Returned (VRef l) (h ++ k)
    ∧ closed (h ++ k) ∧ (h ++ k) !! l = Some (Obj ps).
Proof.
  revert h current. induction tokens as [|token rest IH]; [done |].
  intros h current _ Hh Hcur.
  destruct (descend_returns h current token Hh Hcur) as (o & ps & Hrun & Hclosed).
  simpl. erewrite bind_returned; [|exact Hrun].
  destruct rest as [|token' rest'].
  - exists (S (length h)), ps, [o; Obj ps]. split; [done | split; [done |]].
    replace (h ++ [o; Obj ps]) with ((h ++ [o]) ++ [Obj ps]) by apply snoc_snoc.
    rewrite <- (length_snoc h o). apply lookup_fresh.
  - destruct (IH (h ++ [o; Obj ps]) (VRef (S (length h)))) as (l & ps' & k & Hwalk & Hk & Hl);
      [done | done | simpl; rewrite length_app; simpl; lia |].
    exists l, ps', ([o; Obj ps] ++ k). by rewrite app_assoc.
Qed.

Lemma updateNested_nested_path_returns_mapping h l0 p val :
  closed h → l0 < length h → value_in (length h) val →
  2 ≤ length (Js.split p) →
  ∃ l ps h',
    updateNested (VRef l0) p val h = Returned (VRef l) h'
    ∧ h' !! l = Some (Obj ps)
    ∧ assoc (Js.replace_bracket (List.last (Js.split p) "")) ps = Some val.
Proof.
  intros Hh Hl0 Hval Hlen. unfold updateNested. simpl.
  destruct (walk_ends_in_mapping (removelast (Js.split p)) h (VRef l0))
    as (l & ps & k & Hwalk & Hk & Hl); [by apply removelast_nonempty | done | done |].
  erewrite bind_returned; [|exact Hwalk].
  erewrite bind_returned; [|reflexivity].
  unfold isArray. rewrite Hl.
  erewrite bind_returned;
    [|unfold object_spread; erewrite bind_returned;
      [reflexivity | unfold deref; by rewrite Hl]].
  erewrite bind_returned;
    [|unfold set; erewrite bind_returned; [|apply deref_fresh];
      unfold write; by rewrite insert_fresh].
  eexists _, _, _. split; [reflexivity |]. split; [apply lookup_fresh |].
  apply assoc_assign.
Qed.

(** The end of a turn when the container has no property of that name:
    the loop moves to a fresh empty object. *)
Lemma copy_child_missing h o k :
  lookup_prop o k = VUndefined →
  (child ← get (VRef (length h)) k;
   copy ← object_spread child;
   set (VRef (length h)) k copy;;
   get (VRef (length h)) k) (h ++ [o])
  = Returned (VRef (S (length h)))
      (h ++ [update_prop o k (VRef (S (length h))); Obj []]).
Proof.
  intros Hk.
  rewrite (bind_returned _ _ _ _ _ (get_fresh h o [] k)), Hk.
  erewrite bind_returned; [|reflexivity].
  rewrite snoc_snoc, length_snoc.
  rewrite (bind_returned _ _ _ _ _ (set_fresh h o [Obj []] k _)).
  by rewrite get_fresh, lookup_update_prop.
Qed.

(** A turn of the loop on a key the container does not have moves to a
    fresh empty object. *)
Lemma descend_missing h l o token :
  h !! l = Some o →
  match o with
  | Arr _ _ =>
      Js.array_index_of_name
        (Js.index_name (Js.parseInt (Js.replace_bracket token))) = None
  | Obj ps => assoc (Js.replace_bracket token) ps = None
  end →
  ∃ o',
    descend (VRef l) token h = Returned (VRef (S (length h))) (h ++ [o'; Obj []]).
Proof.
  intros Hl Hmissing. unfold descend.
  erewrite bind_returned; [|reflexivity].
  unfold isArray. rewrite Hl. destruct o as [es ex|ps].
  - rewrite (bind_returned _ _ _ _ _ (array_spread_at _ _ _ _ Hl)).
    eexists. apply copy_child_missing. simpl. by rewrite Hmissing.
  - rewrite (bind_returned _ _ _ _ _ (object_spread_at _ _ _ Hl)).
    eexists. apply copy_child_missing. simpl.
    by rewrite (assoc_own_order_None _ _ Hmissing).
Qed.

(** From an empty object the loop stays on empty objects. *)
Lemma walk_from_empty tokens h l :
  h !! l = Some (Obj []) →
  ∃ l' k,
    walk tokens (VRef l) h = Returned (VRef l') (h ++ k)
    ∧ (h ++ k) !! l' = Some (Obj []).
Proof.
  revert h l. induction tokens as [|token rest IH]; intros h l Hl.
  - exists l, []. rewrite app_nil_r. done.
  - destruct (descend_missing h l (Obj []) token Hl) as [o' Hrun]; [done |].
    destruct (IH (h ++ [o'; Obj []]) (S (length h))) as (l' & k & Hwalk & Hl');
      [apply lookup_second |].
    exists l', ([o'; Obj []] ++ k). rewrite app_assoc. split; [|done].
    simpl. erewrite bind_returned; [|exact Hrun]. exact Hwalk.
Qed.

(** On a document without an own property named [root], an update at a
    path that starts with the token [root] and has further tokens returns
    the one-entry mapping of the last token to the new value. *)
Lemma updateNested_from_root_token h l o rest val :
  h !! l = Some o → ¬ has_own_root o → rest ≠ [] →
  ∀ p, Js.split p = "root" :: rest →
  ∃ l' h',
    updateNested (VRef l) p val h = Returned (VRef l') h'
    ∧ h' !! l' = Some (Obj [(Js.replace_bracket (List.last rest ""), val)]).
Proof.
  intros Hl Hroot Hrest p Hp. unfold updateNested. simpl. rewrite Hp.
  rewrite removelast_cons, last_cons by done. simpl walk.
  destruct (descend_missing h l o "root" Hl) as [o' Hrun].
  { destruct o as [es ex|ps]; [done |]. simpl in *.
    destruct (assoc "root" ps); [|done]. exfalso. apply Hroot. by eexists. }
  destruct (walk_from_empty (removelast rest) (h ++ [o'; Obj []]) (S (length h)))
    as (l1 & k & Hwalk & Hl1); [apply lookup_second |].
  erewrite bind_returned;
    [|erewrite bind_returned; [|exact Hrun]; exact Hwalk].
  erewrite bind_returned; [|reflexivity].
  unfold isArray. rewrite Hl1.
  rewrite (bind_returned _ _ _ _ _ (object_spread_at _ _ _ Hl1)).
  rewrite (bind_returned _ _ _ _ _ (set_fresh _ _ [] _ _)).
  eexists _, _. split; [reflexivity |]. apply lookup_fresh.
Qed.

(** A path of one token on a sequence reaches the assignment by index:
    the result is a copy of the sequence with the element stored, past
    the end if the index is. *)
Lemma updateNested_one_token_on_sequence h l es ex p token i val :
  h !! l = Some (Arr es ex) →
  Js.split p = [token] →
  Js.parseInt (Js.replace_bracket token) = Some (Z.of_nat i) →
  (N.of_nat i < 4294967295)%N →
  updateNested (VRef l) p val h
  = Returned (VRef (length h))
      (h ++ [Arr (store_elem i val ((λ e, Some (default VUndefined e)) <$> es)) []]).
Proof.
  intros Hl Hp Hi Hlt. unfold updateNested. simpl. rewrite Hp. simpl.
  erewrite bind_returned; [|reflexivity].
  erewrite bind_returned; [|reflexivity].
  unfold isArray. rewrite Hl.
  rewrite (bind_returned _ _ _ _ _ (array_spread_at _ _ _ _ Hl)).
  rewrite (bind_returned _ _ _ _ _ (set_fresh _ _ [] _ _)).
  rewrite Hi, index_name_of_nat. unfold Js.dec_nat. simpl.
  rewrite array_index_of_name_dec by done. by rewrite Nat2N.id.
Qed.

End UpdateFacts.

(* ===================================================================== *)
(** * The tree of a value does not depend on later allocations            *)
(* ===================================================================== *)

Module TreeFacts.
Import Store Tree Inv StoreFacts.

Lemma snapshot_extend fuel h k v :
  closed h → value_in (length h) v →
  snapshot fuel (h ++ k) v = snapshot fuel h v.
Proof.
  intros Hh. revert v. induction fuel as [|fuel IH]; intros v Hv;
    destruct v as [| | b | n | s | l]; simpl; try done.
  simpl in Hv. rewrite lookup_app_l by done.
  destruct (h !! l) as [o|] eqn:Ho; [|done].
  pose proof (closed_lookup _ _ _ Hh Ho) as Hin.
  destruct o as [es ex|ps]; simpl in Hin; f_equal.
  - destruct Hin as [Hes _]. apply Forall_mapM_ext.
    eapply Forall_impl; [exact Hes |].
    intros [x|] Hx; simpl in *; [|done]. by rewrite IH.
  - apply Forall_mapM_ext. apply own_order_Forall.
    eapply Forall_impl; [exact Hin |].
    intros [key x] Hx; simpl in *. by rewrite IH.
Qed.

End TreeFacts.

(* ===================================================================== *)
(** * The properties of the specification                                 *)
(* ===================================================================== *)

Import Store Form Tree Inv Shape Sample.

(** ** The path update *)

(** C4.  [updateNested] never changes an object of the store it is
    called in: for every path and every new value the call returns, each
    object that existed before the call is the same after it, and the
    tree of the original value is the tree it was. *)
Theorem updateNested_keeps_original h obj p val :
  closed h → value_in (length h) obj → value_in (length h) val →
  ∃ r h',
    updateNested obj p val h = Returned r h'
    ∧ (∀ l o, h !! l = Some o → h' !! l = Some o)
    ∧ (∀ fuel, snapshot fuel h' obj = snapshot fuel h obj).
Proof.
  intros Hh Hobj Hval.
  destruct (UpdateFacts.updateNested_returns h obj p val Hh Hobj Hval)
    as (r & k & Hrun & _ & _).
  exists r, (h ++ k). split; [exact Hrun | split].
  - intros l o Hl. rewrite lookup_app_l; [done |].
    by apply lookup_lt_is_Some_1.
  - intros fuel. by apply TreeFacts.snapshot_extend.
Qed.

Lemma updateNested_keeps_original_witness :
  closed store_ab
  ∧ value_in (length store_ab) (VRef 0)
  ∧ value_in (length store_ab) (num 5)
  ∧ ∃ r h',
      updateNested (VRef 0) "root.a" (num 5) store_ab = Returned r h'
      ∧ (∀ l o, store_ab !! l = Some o → h' !! l = Some o)
      ∧ (∀ fuel, snapshot fuel h' (VRef 0) = snapshot fuel store_ab (VRef 0)).
Proof.
  assert (Hclosed : closed store_ab) by repeat constructor.
  assert (Hobj : value_in (length store_ab) (VRef 0)) by (simpl; lia).
  assert (Hval : value_in (length store_ab) (num 5)) by exact I.
  split; [exact Hclosed | split; [exact Hobj | split; [exact Hval |]]].
  exact (updateNested_keeps_original store_ab (VRef 0) "root.a" (num 5)
           Hclosed Hobj Hval).
Defined.

(** C5.  On a bare scalar (a string, a number or a boolean) the update
    returns the new value itself, whatever the path, and leaves the store
    alone; [update(5, "root", true)] is [true]. *)
Theorem updateNested_scalar_root obj :
  scalar obj →
  ∀ p val h, updateNested obj p val h = Returned val h.
Proof. intros Hobj p val h. by destruct obj. Qed.

Lemma updateNested_scalar_root_witness :
  scalar (num 5)
  ∧ updateNested (num 5) "root" (VBool true) [] = Returned (VBool true) [].
Proof. split; [exact I | apply (updateNested_scalar_root (num 5) I)]. Defined.

(** C1.  Editing the leaf [root.a] of [{"a": 1, "b": 2}], a path the
    renderer produced for it, returns [{"a": 5}]: the sibling [b] is not
    in the result, which is not a copy of the root but the innermost
    container the loop reached. *)
Theorem updateNested_drops_siblings :
  RenderForm store_ab {| value_of := VRef 0; path_of := "root" |}
  = Accordion "root"
      [("a", {| value_of := num 1; path_of := "root.a" |});
       ("b", {| value_of := num 2; path_of := "root.b" |})]
  ∧ snapshot 1 store_ab (VRef 0)
    = Some (DObject [("a", DNumber (Js.of_Z 1)); ("b", DNumber (Js.of_Z 2))])
  ∧ result_tree (updateNested (VRef 0) "root.a" (num 5) store_ab)
    = Some (DObject [("a", DNumber (Js.of_Z 5))])
  ∧ deep_equal
      (DObject [("a", DNumber (Js.of_Z 5))])
      (DObject [("a", DNumber (Js.of_Z 5)); ("b", DNumber (Js.of_Z 2))])
    = false.
Proof. repeat split; vm_compute; reflexivity. Qed.

(** C2.  Writing back to [root.a] of [{"a": 1, "b": 2}] the value [1]
    that the renderer read there returns [{"a": 1}], which is not deeply
    equal to the document. *)
Theorem updateNested_same_value_changes_tree :
  {| value_of := num 1; path_of := "root.a" |}
  ∈ children (RenderForm store_ab {| value_of := VRef 0; path_of := "root" |})
  ∧ ∃ before after,
      snapshot 1 store_ab (VRef 0) = Some before
      ∧ result_tree (updateNested (VRef 0) "root.a" (num 1) store_ab) = Some after
      ∧ after = DObject [("a", DNumber (Js.of_Z 1))]
      ∧ deep_equal after before = false.
Proof.
  split; [apply list_elem_of_here |].
  eexists _, _. repeat split; vm_compute; reflexivity.
Qed.

(** C6.  On [{"arr": ["a", "b"]}] the stale path [root.arr[5]], whose
    last token is an index past the end of the sequence, returns the
    mapping [{"5": "z"}]: no sequence is extended.  With the path
    [arr[5]], which the loop resolves to the sequence, the result is the
    mapping [{"0": "a", "1": "b", "5": "z"}]: the loop has replaced the
    sequence by a plain object copy.  Only a one-token path on a sequence
    reaches the assignment past the end.  On [{"a": {"b": 1}}] the stale
    path [root.a.c] returns [{"c": "z"}]: the key is created, in a
    mapping that is not the one the path addresses. *)
Theorem updateNested_stale_index_yields_mapping :
  snapshot 2 store_arr (VRef 1)
  = Some (DObject [("arr", DArray [Some (DString "a"); Some (DString "b")])])
  ∧ result_tree (updateNested (VRef 1) "root.arr[5]" (VStr "z") store_arr)
    = Some (DObject [("5", DString "z")])
  ∧ result_tree (updateNested (VRef 1) "arr[5]" (VStr "z") store_arr)
    = Some (DObject [("0", DString "a"); ("1", DString "b"); ("5", DString "z")])
  ∧ result_tree (updateNested (VRef 0) "5" (VStr "z") store_arr)
    = Some (DArray [Some (DString "a"); Some (DString "b");
                    None; None; None; Some (DString "z")])
  ∧ result_tree (updateNested (VRef 1) "root.a.c" (VStr "z") store_nested)
    = Some (DObject [("c", DString "z")]).
Proof. repeat split; vm_compute; reflexivity. Qed.

(** ** The parse action *)

(** C3, as the code has it.  When the text does not parse, the parse
    action sets the error to the prefix ["Invalid JSON: "] followed by
    the diagnostic of the parser, and sets the form data to [null]: a
    tree parsed before is discarded.  The text and the store are left as
    they were. *)
Theorem handleParseJson_failure_clears_data
  (JSON_parse : string → M value) (st : State) h err :
  JSON_parse (jsonString st) h = Thrown err →
  handleParseJson JSON_parse st h
  = ({| jsonString := jsonString st;
        formData := VNull;
        error := Some ("Invalid JSON: " ++ message err)%string |}, h).
Proof. intros Hfail. unfold handleParseJson. by rewrite Hfail. Qed.

Lemma handleParseJson_failure_clears_data_witness :
  rejecting (jsonString edited) store_ab
  = Thrown {| name := "SyntaxError";
              message := "Expected property name or '}' in JSON at position 1" |}
  ∧ handleParseJson rejecting edited store_ab
    = ({| jsonString := "{invalid";
          formData := VNull;
          error := Some "Invalid JSON: Expected property name or '}' in JSON at position 1" |},
       store_ab).
Proof.
  split; [reflexivity |].
  apply (handleParseJson_failure_clears_data rejecting edited store_ab
           {| name := "SyntaxError";
              message := "Expected property name or '}' in JSON at position 1" |}).
  reflexivity.
Defined.

(** C3, as stated, does not hold: with [{"a": 1, "b": 2}] on display,
    the text ["{invalid"] fails to parse and the form data, which was the
    document, is [null] afterwards. *)
Lemma handleParseJson_failure_keeps_data_refuted :
  rejecting (jsonString edited) store_ab
  = Thrown {| name := "SyntaxError";
              message := "Expected property name or '}' in JSON at position 1" |}
  ∧ formData edited = VRef 0
  ∧ formData (handleParseJson rejecting edited store_ab).1 = VNull
  ∧ formData (handleParseJson rejecting edited store_ab).1 ≠ formData edited.
Proof. repeat split. discriminate. Qed.

(** ** The renderer *)

(** C7.  The change handler of a numeric field reports, at the path of
    the field, the text parsed by [parseFloat]; when the parse fails
    (NaN), and when it gives [0] or [-0], it reports the number [0].
    The text ["abc"] fails to parse and is reported as [0], whatever the
    field held. *)
Theorem number_field_reports_parsed_or_zero h n path :
  ∃ onChange,
    RenderForm h {| value_of := VNum n; path_of := path |}
    = NumberControl path n onChange
    ∧ (∀ text,
         onChange text
         = (VNum match Js.parseFloat text with
                 | S754_nan | S754_zero _ => Js.zero
                 | parsed => parsed
                 end, path))
    ∧ Js.parseFloat "abc" = Js.NaN
    ∧ onChange "abc" = (VNum Js.zero, path).
Proof.
  eexists. split; [reflexivity |]. split; [|split; reflexivity].
  intros text. unfold updateValue, or_else. simpl.
  by destruct (Js.parseFloat text).
Qed.

Lemma RenderForm_presentation h v path :
  value_in (length h) v →
  presentation (RenderForm h {| value_of := v; path_of := path |}) = shape_of h v.
Proof.
  intros Hv. destruct v as [| | b | n | s | l]; try reflexivity.
  simpl in Hv. apply lookup_lt_is_Some_2 in Hv as [o Ho].
  unfold shape_of, RenderForm. simpl. rewrite Ho. by destruct o.
Qed.

Lemma RenderForm_label h v path :
  label_of (RenderForm h {| value_of := v; path_of := path |}) = path.
Proof.
  destruct v as [| | b | n | s | l]; try reflexivity.
  unfold RenderForm. simpl. by destruct (h !! l) as [[es ex|ps]|].
Qed.

Lemma RenderForm_reports h v path ed :
  reports (RenderForm h {| value_of := v; path_of := path |}) ed → ed.2 = path.
Proof.
  destruct v as [| | b | n | s | l]; simpl; try done.
  - by intros [checked <-].
  - by intros [text <-].
  - by intros [text <-].
  - unfold RenderForm. simpl. by destruct (h !! l) as [[es ex|ps]|].
Qed.

Lemma RenderForm_unsupported h v path :
  value_in (length h) v → shape_of h v = SUnsupported →
  RenderForm h {| value_of := v; path_of := path |} = Unsupported path.
Proof.
  intros Hv. destruct v as [| | b | n | s | l]; try done.
  simpl in Hv. apply lookup_lt_is_Some_2 in Hv as [o Ho].
  unfold shape_of. simpl. rewrite Ho. by destruct o.
Qed.

Lemma RenderForm_sequence_children h l es ex path child :
  h !! l = Some (Arr es ex) →
  child ∈ children (RenderForm h {| value_of := VRef l; path_of := path |}) ↔
  ∃ i x, es !! i = Some (Some x)
         ∧ child = {| value_of := x;
                      path_of := path ++ "[" ++ Js.dec_nat i ++ "]" |}.
Proof.
  intros Hl. unfold RenderForm. simpl. rewrite Hl. simpl.
  rewrite <- list_fmap_compose, list_elem_of_fmap. split.
  - intros ([i x] & -> & Hix). apply StoreFacts.elem_of_present in Hix.
    by exists i, x.
  - intros (i & x & Hix & ->). exists (i, x). split; [done |].
    by apply StoreFacts.elem_of_present.
Qed.

Lemma RenderForm_mapping_children h l ps path child :
  h !! l = Some (Obj ps) →
  child ∈ children (RenderForm h {| value_of := VRef l; path_of := path |}) ↔
  ∃ k x, assoc k ps = Some x
         ∧ child = {| value_of := x; path_of := path ++ "." ++ k |}.
Proof.
  intros Hl. unfold RenderForm. simpl. rewrite Hl. simpl.
  rewrite <- !list_fmap_compose, list_elem_of_fmap. split.
  - intros ([k a] & -> & Hka). simpl.
    apply StoreFacts.elem_of_own_order in Hka.
    destruct (StoreFacts.assoc_is_Some _ _ _ Hka) as [x Hx].
    exists k, x. by rewrite Hx.
  - intros (k & x & Hk & ->). exists (k, x). simpl. rewrite Hk. split; [done |].
    by apply StoreFacts.own_order_complete, StoreFacts.assoc_elem.
Qed.

(** C8.  [RenderForm] shows a value by the first probe that succeeds, in
    the order string, number, boolean, sequence, mapping, and anything
    else as the placeholder, which reports no edit; the element is shown
    with the path it was given and a control reports its edits at that
    path; the children of a sequence are its elements that are not
    holes, each at [path[index]], those of a mapping are its own
    properties, each at [path.key]; the page starts the form at
    ["root"]. *)
Theorem RenderForm_dispatch h v path :
  value_in (length h) v →
  let e := RenderForm h {| value_of := v; path_of := path |} in
  presentation e = shape_of h v
  ∧ label_of e = path
  ∧ (∀ ed, reports e ed → ed.2 = path)
  ∧ (shape_of h v = SUnsupported → e = Unsupported path ∧ ∀ ed, ¬ reports e ed)
  ∧ (∀ l es ex, v = VRef l → h !! l = Some (Arr es ex) →
       ∀ child, child ∈ children e ↔
         ∃ i x, es !! i = Some (Some x)
                ∧ child = {| value_of := x;
                             path_of := path ++ "[" ++ Js.dec_nat i ++ "]" |})
  ∧ (∀ l ps, v = VRef l → h !! l = Some (Obj ps) →
       ∀ child, child ∈ children e ↔
         ∃ k x, assoc k ps = Some x
                ∧ child = {| value_of := x; path_of := path ++ "." ++ k |})
  ∧ (∀ st, truthy (formData st) = true →
       preview (JsonFormGenerator st)
       = inr {| value_of := formData st; path_of := "root" |}).
Proof.
  intros Hv e. subst e.
  split; [by apply RenderForm_presentation |].
  split; [apply RenderForm_label |].
  split; [intros ed; apply RenderForm_reports |].
  split.
  { intros Hshape. rewrite (RenderForm_unsupported _ _ _ Hv Hshape).
    split; [done | by intros ed []]. }
  split.
  { intros l es ex -> Hl child. by apply RenderForm_sequence_children with ex. }
  split.
  { intros l ps -> Hl child. by apply RenderForm_mapping_children. }
  intros st Htruthy. unfold JsonFormGenerator. simpl. by rewrite Htruthy.
Qed.

Lemma RenderForm_dispatch_witness :
  value_in (length store_doc) (VRef 2)
  ∧ presentation (RenderForm store_doc {| value_of := VRef 2; path_of := "root" |})
    = SMapping
  ∧ {| value_of := VRef 0; path_of := "root.b" |}
    ∈ children (RenderForm store_doc {| value_of := VRef 2; path_of := "root" |}).
Proof.
  assert (Hv : value_in (length store_doc) (VRef 2)) by (simpl; lia).
  split; [exact Hv |].
  destruct (RenderForm_dispatch store_doc (VRef 2) "root" Hv)
    as (Hshape & _ & _ & _ & _ & Hmapping & _).
  split; [exact Hshape |].
  apply (Hmapping 2 _ eq_refl eq_refl). exists "b", (VRef 0).
  split; reflexivity.
Defined.

(** The document [{"a": 1, "b": [true, "x"], "c": {"d": null}}]: a
    numeric field at [root.a], a sequence at [root.b] with a boolean at
    [root.b[0]] and a string at [root.b[1]], a section at [root.c] with
    the placeholder at [root.c.d]. *)
Example RenderForm_document :
  RenderForm store_doc {| value_of := VRef 2; path_of := "root" |}
  = Accordion "root"
      [("a", {| value_of := num 1; path_of := "root.a" |});
       ("b", {| value_of := VRef 0; path_of := "root.b" |});
       ("c", {| value_of := VRef 1; path_of := "root.c" |})]
  ∧ presentation (RenderForm store_doc {| value_of := num 1; path_of := "root.a" |})
    = SNumber
  ∧ RenderForm store_doc {| value_of := VRef 0; path_of := "root.b" |}
    = ListGroup "root.b"
        [(0, {| value_of := VBool true; path_of := "root.b[0]" |});
         (1, {| value_of := VStr "x"; path_of := "root.b[1]" |})]
  ∧ presentation (RenderForm store_doc {| value_of := VBool true; path_of := "root.b[0]" |})
    = SBoolean
  ∧ presentation (RenderForm store_doc {| value_of := VStr "x"; path_of := "root.b[1]" |})
    = SString
  ∧ RenderForm store_doc {| value_of := VRef 1; path_of := "root.c" |}
    = Accordion "root.c" [("d", {| value_of := VNull; path_of := "root.c.d" |})]
  ∧ RenderForm store_doc {| value_of := VNull; path_of := "root.c.d" |}
    = Unsupported "root.c.d".
Proof. repeat split. Qed.

(** ** The paths of the renderer and the update *)

Lemma append_separator_assoc (a : string) c b c' b' :
  ((a ++ String c b) ++ String c' b')%string
  = (a ++ String c (b ++ String c' b'))%string.
Proof. induction a as [|x a IH]; simpl; [done | by rewrite IH]. Qed.

(** The path of a child is the path of its parent followed by [.key] or
    by [[index]]. *)
Lemma children_path h parent child :
  child ∈ children (RenderForm h parent) →
  ∃ c b, Js.is_separator c = true
         ∧ path_of child = (path_of parent ++ String c b)%string.
Proof.
  destruct parent as [v path]. destruct v as [| | b | n | s | l];
    try by intros ?%elem_of_nil.
  destruct (h !! l) as [[es ex|ps]|] eqn:Hl.
  - intros (i & x & _ & ->)%(RenderForm_sequence_children _ _ _ _ _ _ Hl).
    by exists "["%char, (Js.dec_nat i ++ "]")%string.
  - intros (k & x & _ & ->)%(RenderForm_mapping_children _ _ _ _ _ Hl).
    by exists "."%char, k.
  - unfold RenderForm. simpl. rewrite Hl. by intros ?%elem_of_nil.
Qed.

(** Every path the renderer produces is ["root"], for the document, or
    ["root"] followed by a separator and more. *)
Lemma rendered_path h root props :
  rendered h root props →
  path_of props = "root"
  ∨ ∃ c b, Js.is_separator c = true
           ∧ path_of props = ("root" ++ String c b)%string.
Proof.
  induction 1 as [|parent child _ IH Hchild]; [by left |]. right.
  destruct (children_path _ _ _ Hchild) as (c' & b' & Hc' & ->).
  destruct IH as [-> | (c & b & Hc & ->)].
  - by exists c', b'.
  - exists c, (b ++ String c' b')%string. split; [done |].
    apply append_separator_assoc.
Qed.

(** The defect behind C1, C2 and C6 in general: for a document that has
    no own property named [root] (any sequence, and any mapping without
    that key), an edit at any path the renderer produced below the root
    returns a mapping with one entry, the new value under the last token:
    the rest of the document is not in the result. *)
Lemma updateNested_on_rendered_path h l o props val :
  h !! l = Some o → ¬ has_own_root o →
  rendered h (VRef l) props → path_of props ≠ "root" →
  ∃ key l' h',
    updateNested (VRef l) (path_of props) val h = Returned (VRef l') h'
    ∧ h' !! l' = Some (Obj [(key, val)]).
Proof.
  intros Hl Hroot Hprops Hpath.
  destruct (rendered_path _ _ _ Hprops) as [? | (c & b & Hc & Hp)]; [done |].
  destruct (UpdateFacts.updateNested_from_root_token h l o (Js.split b) val Hl Hroot)
    with (p := path_of props) as (l' & h' & Hrun & Hl').
  - pose proof (UpdateFacts.split_nonempty b) as Hlen.
    destruct (Js.split b); [simpl in Hlen; lia | done].
  - rewrite Hp. by apply UpdateFacts.split_root.
  - eauto.
Qed.

(** ** The guards on the form data *)

(** C10.  When the form data is a falsy scalar ([0], [false] or the
    empty string) the edit handler returns the state as it is, for every
    path and new value, the output action writes nothing and the page
    shows no [<RenderForm>] element: what these three do when there is
    no tree. *)
Theorem falsy_form_data_is_treated_as_absent
  (JSON_stringify : list object → value → string) (st : State) :
  falsy_scalar (formData st) ∨ absent (formData st) →
  (∀ newValue path h, handleFormChange st newValue path h = Returned st h)
  ∧ (∀ h, handleJsonOutput JSON_stringify st h = None)
  ∧ preview (JsonFormGenerator st) = inl (formData st).
Proof.
  intros Hfalsy.
  assert (Hguard : truthy (formData st) = false).
  { destruct Hfalsy as [[[s ->] | [-> | ->]] | ->]; reflexivity. }
  unfold handleFormChange, handleJsonOutput, JsonFormGenerator. simpl.
  rewrite Hguard. done.
Qed.

Lemma falsy_form_data_is_treated_as_absent_witness :
  (falsy_scalar (formData parsed_zero) ∨ absent (formData parsed_zero))
  ∧ (∀ newValue path h,
       handleFormChange parsed_zero newValue path h = Returned parsed_zero h)
  ∧ (∀ h, handleJsonOutput (λ _ _, "0") parsed_zero h = None)
  ∧ preview (JsonFormGenerator parsed_zero) = inl (num 0).
Proof.
  assert (Hfalsy : falsy_scalar (formData parsed_zero)
                   ∨ absent (formData parsed_zero)).
  { left. left. exists false. reflexivity. }
  split; [exact Hfalsy |].
  exact (falsy_form_data_is_treated_as_absent (λ _ _, "0") parsed_zero Hfalsy).
Defined.

(* ===================================================================== *)
(** * Further properties of the renderer, the update and the page         *)
(* ===================================================================== *)

Import Keys Reach Session Demo.
Import StoreFacts UpdateFacts.

(** ** Paths and tokens *)

Lemma split_app a c b :
  Js.is_separator c = true →
  Js.split (a ++ String c b) = Js.split a ++ Js.split b.
Proof.
  intros Hc. induction a as [|x a IH]; simpl.
  - by rewrite Hc.
  - destruct (Js.is_separator x); [by rewrite IH |].
    rewrite IH. pose proof (split_nonempty a) as Hlen.
    destruct (Js.split a); [simpl in Hlen; lia | done].
Qed.

Lemma split_plain k : all_chars (λ c, negb (Js.is_separator c)) k = true → Js.split k = [k].
Proof.
  induction k as [|c r IH]; simpl; [done |].
  intros [Hc Hr]%andb_true_iff. apply negb_true_iff in Hc. rewrite Hc.
  by rewrite (IH Hr).
Qed.


Lemma all_chars_impl (P Q : ascii → bool) s :
  (∀ c, P c = true → Q c = true) → all_chars P s = true → all_chars Q s = true.
Proof.
  intros HPQ. induction s as [|c r IH]; simpl; [done |].
  intros [Hc Hr]%andb_true_iff. by rewrite (HPQ _ Hc), (IH Hr).
Qed.

Lemma is_digit_facts c :
  Js.is_digit c = true →
  Js.is_space c = false ∧ Js.is_separator c = false ∧ Ascii.eqb c "]" = false
  ∧ Js.hex_value c = Some (Js.digit_value c) ∧ (Js.digit_value c < 10)%N
  ∧ Js.strip_sign (String c "") = (false, String c "").
Proof.
  destruct c as [[] [] [] [] [] [] [] []]; intros H; try discriminate H;
    repeat split; reflexivity.
Qed.

Lemma uint_digits d : all_chars Js.is_digit (NilEmpty.string_of_uint d) = true.
Proof. induction d; simpl; done. Qed.

Lemma dec_digits n : all_chars Js.is_digit (Js.dec n) = true.
Proof.
  unfold Js.dec, NilZero.string_of_uint.
  destruct (N.to_uint n) eqn:E; try apply uint_digits. done.
Qed.

Lemma read_digits_step c r acc seen :
  Js.is_digit c = true →
  Js.read_digits 10 (String c r) acc seen
  = Js.read_digits 10 r (acc * 10 + Js.digit_value c)%N true.
Proof.
  intros (_ & _ & _ & Hhex & Hlt & _)%is_digit_facts.
  cbn [Js.read_digits]. rewrite Hhex.
  by apply N.ltb_lt in Hlt as ->.
Qed.

Lemma read_digits_acc d p :
  Js.read_digits 10 (NilEmpty.string_of_uint d) (N.pos p) true
  = Some (N.pos (Pos.of_uint_acc d p)).
Proof.
  revert p. induction d; intros p; cbn [NilEmpty.string_of_uint Pos.of_uint_acc];
    [done | rewrite read_digits_step by done ..];
    match goal with
    | |- Js.read_digits _ _ ?a _ = Some (N.pos (Pos.of_uint_acc _ ?q)) =>
        replace a with (N.pos q) by (vm_compute Js.digit_value; lia)
    end; apply IHd.
Qed.

Lemma read_digits_uint d seen :
  d ≠ Nil ∨ seen = true →
  Js.read_digits 10 (NilEmpty.string_of_uint d) 0 seen = Some (Pos.of_uint d).
Proof.
  revert seen. induction d; intros seen Hd; cbn [NilEmpty.string_of_uint Pos.of_uint];
    [by destruct Hd as [? | ->] | rewrite read_digits_step by done ..].
  - change (0 * 10 + Js.digit_value "0")%N with 0%N. apply IHd. by right.
  - apply (read_digits_acc d 1).
  - apply (read_digits_acc d 2).
  - apply (read_digits_acc d 3).
  - apply (read_digits_acc d 4).
  - apply (read_digits_acc d 5).
  - apply (read_digits_acc d 6).
  - apply (read_digits_acc d 7).
  - apply (read_digits_acc d 8).
  - apply (read_digits_acc d 9).
Qed.

(** [parseInt] reads a decimal numeral back. *)
Lemma parseInt_dec n : Js.parseInt (Js.dec n) = Some (Z.of_N n).
Proof.
  assert (Hread : Js.read_digits 10 (Js.dec n) 0 false = Some n).
  { unfold Js.dec, NilZero.string_of_uint.
    rewrite <- (DecimalN.Unsigned.of_to n) at 2. unfold N.of_uint.
    destruct (N.to_uint n) eqn:E;
      try (apply read_digits_uint; by left).
    destruct n; [discriminate E | by apply DecimalPos.Unsigned.to_uint_nonnil in E]. }
  pose proof (dec_digits n) as Hdigits.
  destruct (Js.dec n) as [|c r] eqn:E; [discriminate Hread |].
  simpl in Hdigits. apply andb_true_iff in Hdigits as [Hc Hr].
  unfold Js.parseInt.
  destruct (is_digit_facts c Hc) as (Hspace & _ & _ & _ & _ & Hsign).
  cbn [Js.trim_start]. rewrite Hspace.
  assert (Hs : Js.strip_sign (String c r) = (false, String c r)).
  { revert Hsign. destruct c as [[] [] [] [] [] [] [] []]; try done. }
  rewrite Hs.
  assert (Hprefix :
    match String c r with
    | String "0" (String "x" r') | String "0" (String "X" r') => (16%N, r')
    | _ => (10%N, String c r)
    end = (10%N, String c r)).
  { destruct r as [|c' r']; [by destruct c as [[] [] [] [] [] [] [] []] |].
    simpl in Hr. apply andb_true_iff in Hr as [Hc' _].
    destruct c as [[] [] [] [] [] [] [] []]; try done.
    destruct c' as [[] [] [] [] [] [] [] []]; try done. }
  rewrite Hprefix, Hread. done.
Qed.

Lemma replace_bracket_closing a :
  all_chars (λ c, negb (Ascii.eqb c "]")) a = true →
  Js.replace_bracket (a ++ "]") = a.
Proof.
  induction a as [|c r IH]; simpl; [done |].
  intros [Hc Hr]%andb_true_iff. apply negb_true_iff in Hc. rewrite Hc.
  by rewrite (IH Hr).
Qed.

Lemma index_token_split n : Js.split (Js.dec n ++ "]") = [(Js.dec n ++ "]")%string].
Proof.
  apply split_plain. pose proof (dec_digits n) as Hd.
  induction (Js.dec n) as [|c r IH]; simpl in *; [done |].
  apply andb_true_iff in Hd as [Hc Hr].
  destruct (is_digit_facts c Hc) as (_ & -> & _). simpl. by apply IH.
Qed.

Lemma index_token_key n : Js.replace_bracket (Js.dec n ++ "]") = Js.dec n.
Proof.
  apply replace_bracket_closing.
  eapply all_chars_impl; [|apply dec_digits].
  by intros c (_ & _ & -> & _)%is_digit_facts.
Qed.

(** X1.  The path of an element rendered in a sequence and the tokens the
    update reads agree: the path of the child at index [i] splits into
    the tokens of the path of the sequence followed by one token, from
    which the update reads the index [i] back ([replace] then
    [parseInt]), and that index addresses the value the child shows. *)
Theorem sequence_child_token h l es ex path child :
  h !! l = Some (Arr es ex) →
  (N.of_nat (length es) < 4294967295)%N →
  child ∈ children (RenderForm h {| value_of := VRef l; path_of := path |}) →
  ∃ i token,
    es !! i = Some (Some (value_of child))
    ∧ Js.split (path_of child) = Js.split path ++ [token]
    ∧ Js.parseInt (Js.replace_bracket token) = Some (Z.of_nat i)
    ∧ lookup_prop (Arr es ex)
        (Js.index_name (Js.parseInt (Js.replace_bracket token)))
      = value_of child.
Proof.
  intros Hl Hlen (i & x & Hi & ->)%(RenderForm_sequence_children _ _ _ _ _ _ Hl).
  exists i, (Js.dec_nat i ++ "]")%string. simpl.
  split; [done |]. split.
  { change (path ++ "[" ++ Js.dec_nat i ++ "]")%string
      with (path ++ String "[" (Js.dec_nat i ++ "]"))%string.
    rewrite split_app by done. unfold Js.dec_nat. by rewrite index_token_split. }
  assert (Hparse : Js.parseInt (Js.replace_bracket (Js.dec_nat i ++ "]"))
                   = Some (Z.of_nat i)).
  { unfold Js.dec_nat. rewrite index_token_key, parseInt_dec. f_equal. lia. }
  split; [done |].
  rewrite Hparse, index_name_of_nat. unfold Js.dec_nat. simpl.
  rewrite array_index_of_name_dec.
  - by rewrite Nat2N.id, Hi.
  - apply lookup_lt_Some in Hi. lia.
Qed.

Lemma sequence_child_token_witness :
  store_doc !! 0 = Some (Arr [Some (VBool true); Some (VStr "x")] [])
  ∧ (N.of_nat 2 < 4294967295)%N
  ∧ {| value_of := VStr "x"; path_of := "root.b[1]" |}
    ∈ children (RenderForm store_doc {| value_of := VRef 0; path_of := "root.b" |})
  ∧ ∃ i token,
      [Some (VBool true); Some (VStr "x")] !! i = Some (Some (VStr "x"))
      ∧ Js.split "root.b[1]" = Js.split "root.b" ++ [token]
      ∧ Js.parseInt (Js.replace_bracket token) = Some (Z.of_nat i)
      ∧ lookup_prop (Arr [Some (VBool true); Some (VStr "x")] [])
          (Js.index_name (Js.parseInt (Js.replace_bracket token)))
        = VStr "x".
Proof.
  assert (H1 : store_doc !! 0 = Some (Arr [Some (VBool true); Some (VStr "x")] []))
    by reflexivity.
  assert (H2 : (N.of_nat 2 < 4294967295)%N) by reflexivity.
  assert (H3 : {| value_of := VStr "x"; path_of := "root.b[1]" |}
               ∈ children (RenderForm store_doc
                             {| value_of := VRef 0; path_of := "root.b" |}))
    by (apply list_elem_of_further, list_elem_of_here).
  split; [exact H1 | split; [exact H2 | split; [exact H3 |]]].
  exact (sequence_child_token store_doc 0 _ _ "root.b" _ H1 H2 H3).
Defined.



(** ** The children of an element *)

Lemma insert_sorted_perm {A : Type} n (e : string * A) l :
  insert_sorted n e l ≡ₚ (n, e) :: l.
Proof.
  induction l as [|[m e'] r IH]; simpl; [done |].
  destruct (n <? m)%N; [done |]. rewrite IH. apply Permutation_swap.
Qed.

Lemma index_entries_perm {A : Type} (ps : list (string * A)) :
  snd <$> index_entries ps
  ≡ₚ filter (λ e, ¬ Js.array_index_of_name e.1 = None) ps.
Proof.
  induction ps as [|[k a] r IH]; simpl; [done |].
  destruct (Js.array_index_of_name k) as [n|] eqn:E.
  - rewrite insert_sorted_perm. simpl. rewrite IH.
    rewrite filter_cons_True; [done |]. simpl. by rewrite E.
  - rewrite filter_cons_False; [done |]. simpl. rewrite E. by intros [].
Qed.

(** The enumeration of the own properties is a rearrangement of them. *)
Lemma own_order_perm {A : Type} (ps : list (string * A)) : own_order ps ≡ₚ ps.
Proof.
  unfold own_order, named_entries. rewrite index_entries_perm.
  rewrite Permutation_app_comm. apply filter_app_complement.
Qed.

Lemma present_from_NoDup {A : Type} i (es : list (option A)) :
  NoDup (fst <$> present_from i es).
Proof.
  revert i. induction es as [|[a|] r IH]; intros i; simpl.
  - constructor.
  - constructor; [|apply IH].
    intros ([j b] & Hj & Hin)%list_elem_of_fmap. simpl in Hj. subst j.
    apply elem_of_present_from in Hin as (j & Hj & _). simpl in Hj. lia.
  - apply IH.
Qed.

Lemma append_cancel_l (p a b : string) : (p ++ a)%string = (p ++ b)%string → a = b.
Proof. induction p as [|c p IH]; simpl; [done |]. intros [= H]. by apply IH. Qed.

Lemma dec_nat_inj i j : Js.dec_nat i = Js.dec_nat j → i = j.
Proof.
  unfold Js.dec_nat. intros H. apply (f_equal Js.parseInt) in H.
  rewrite !parseInt_dec in H. injection H. lia.
Qed.

(** X3.  The children of a rendered element have pairwise distinct
    paths: the elements of a sequence always, the properties of a mapping
    as its keys are distinct. *)
Theorem sibling_paths_distinct h v path :
  (∀ l ps, v = VRef l → h !! l = Some (Obj ps) → NoDup (fst <$> ps)) →
  NoDup (path_of <$> children (RenderForm h {| value_of := v; path_of := path |})).
Proof.
  intros Hkeys. destruct v as [| | b | n | s | l]; try by constructor.
  unfold RenderForm. simpl.
  destruct (h !! l) as [[es ex|ps]|] eqn:Hl; simpl; [| |by constructor].
  - rewrite <- !list_fmap_compose.
    replace (path_of ∘ _ ∘ _)
      with ((λ i, path ++ String "[" (Js.dec_nat i ++ "]"))%string ∘ (fst : nat * value → nat))
      by done.
    rewrite list_fmap_compose. apply NoDup_fmap_2_strong; [|apply present_from_NoDup].
    intros i j _ _ Hij. apply append_cancel_l in Hij. injection Hij as Hij.
    apply dec_nat_inj.
    apply (f_equal Js.replace_bracket) in Hij. unfold Js.dec_nat in *.
    by rewrite !index_token_key in Hij.
  - rewrite <- !list_fmap_compose.
    replace (path_of ∘ _ ∘ _ ∘ _)
      with ((λ k, path ++ String "." k)%string ∘ (fst : string * value → string))
      by done.
    rewrite list_fmap_compose. apply NoDup_fmap_2_strong.
    + intros k k' _ _ Hkk. apply append_cancel_l in Hkk. by injection Hkk.
    + rewrite own_order_perm. by eapply Hkeys.
Qed.

Lemma sibling_paths_distinct_witness :
  (∀ l ps, VRef 2 = VRef l → store_doc !! l = Some (Obj ps) → NoDup (fst <$> ps))
  ∧ NoDup (path_of <$> children (RenderForm store_doc
                                   {| value_of := VRef 2; path_of := "root" |})).
Proof.
  assert (H1 : ∀ l ps, VRef 2 = VRef l → store_doc !! l = Some (Obj ps) →
                       NoDup (fst <$> ps)).
  { intros l ps [= <-] [= <-]. simpl.
    repeat (constructor;
            [intros H; repeat (apply elem_of_cons in H as [H | H]; [discriminate H |]);
             by apply elem_of_nil in H |]).
    constructor. }
  split; [exact H1 |].
  exact (sibling_paths_distinct store_doc (VRef 2) "root" H1).
Defined.

(** ** Edits *)

(** X4.  Only a string, a number or a boolean reports edits, and an
    edit carries a value of the same type as the value shown, at the path
    of the field; the number an edit carries is never NaN and never
    [-0]. *)
Theorem edit_keeps_leaf_type h v path ed :
  reports (RenderForm h {| value_of := v; path_of := path |}) ed →
  scalar v ∧ typeof ed.1 = typeof v ∧ ed.2 = path
  ∧ ed.1 ≠ VNum S754_nan ∧ ed.1 ≠ VNum (S754_zero true).
Proof.
  destruct v as [| | b | n | s | l]; simpl; try done.
  - by intros [checked <-].
  - intros [text <-]. unfold updateValue, or_else. simpl.
    by destruct (Js.parseFloat text) as [[]|[]| |[] ? ?].
  - by intros [text <-].
  - unfold RenderForm. simpl. by destruct (h !! l) as [[es ex|ps]|].
Qed.

Lemma edit_keeps_leaf_type_witness :
  reports (RenderForm [] {| value_of := num 5; path_of := "root" |})
          (VNum Js.zero, "root")
  ∧ scalar (num 5)
  ∧ typeof (VNum Js.zero) = typeof (num 5)
  ∧ "root" = "root"
  ∧ VNum Js.zero ≠ VNum S754_nan
  ∧ VNum Js.zero ≠ VNum (S754_zero true).
Proof.
  assert (H1 : reports (RenderForm [] {| value_of := num 5; path_of := "root" |})
                       (VNum Js.zero, "root"))
    by (exists "abc"; reflexivity).
  split; [exact H1 |].
  exact (edit_keeps_leaf_type [] (num 5) "root" (VNum Js.zero, "root") H1).
Defined.

(** ** The node the update copies *)








(** X5.  On a sequence or a mapping the update returns a reference to
    an object it has created: a location that held nothing before the
    call, so never the object it was given, whatever the path and also
    when the value written is the one already there. *)
Theorem updateNested_returns_new_object h l p val :
  closed h → l < length h → value_in (length h) val →
  ∃ l' h',
    updateNested (VRef l) p val h = Returned (VRef l') h'
    ∧ length h ≤ l' < length h'
    ∧ h !! l' = None
    ∧ l' ≠ l.
Proof.
  intros Hh Hl Hval. unfold updateNested. simpl.
  destruct (walk_returns (removelast (Js.split p)) h (VRef l) Hh Hl)
    as (last & k & Hwalk & Hk & Hlast).
  rewrite (bind_returned _ _ _ _ _ Hwalk).
  destruct (final_write_returns (h ++ k) last
              (Js.replace_bracket (List.last (Js.split p) "")) val Hk Hlast)
    as (o & Hrun & _).
  { eapply value_in_mono; [|exact Hval]. rewrite length_app. lia. }
  exists (length (h ++ k)), ((h ++ k) ++ [o]). split; [exact Hrun |].
  rewrite !length_app. simpl. split; [lia |]. split; [|lia].
  apply lookup_ge_None. lia.
Qed.

Lemma updateNested_returns_new_object_witness :
  closed store_ab ∧ 0 < length store_ab ∧ value_in (length store_ab) (num 1)
  ∧ ∃ l' h',
      updateNested (VRef 0) "root.a" (num 1) store_ab = Returned (VRef l') h'
      ∧ length store_ab ≤ l' < length h'
      ∧ store_ab !! l' = None
      ∧ l' ≠ 0.
Proof.
  assert (H1 : closed store_ab) by repeat constructor.
  assert (H2 : 0 < length store_ab) by (simpl; lia).
  assert (H3 : value_in (length store_ab) (num 1)) by exact I.
  split; [exact H1 | split; [exact H2 | split; [exact H3 |]]].
  exact (updateNested_returns_new_object store_ab 0 "root.a" (num 1) H1 H2 H3).
Defined.

(** ** The change handler *)



(** X8.  When the document is a scalar and the field at the root
    reports a falsy value ([0] for a text that is not a number, [false],
    the empty text), the form data becomes that value, the page shows no
    form, and no later change event alters the state. *)
Theorem falsy_edit_of_scalar_root_ends_form st h ed :
  scalar (formData st) → truthy (formData st) = true →
  reports (RenderForm h {| value_of := formData st; path_of := "root" |}) ed →
  truthy ed.1 = false →
  let st' := setFormData ed.1 st in
  handleFormChange st ed.1 ed.2 h = Returned st' h
  ∧ preview (JsonFormGenerator st') = inl ed.1
  ∧ ∀ newValue path h', handleFormChange st' newValue path h' = Returned st' h'.
Proof.
  intros Hscalar Htruthy Hed Hfalsy st'. subst st'. split; [|split].
  - assert (Hup : updateNested (formData st) ed.2 ed.1 h = Returned ed.1 h)
      by by destruct (formData st).
    unfold handleFormChange. rewrite Htruthy.
    by rewrite (bind_returned _ _ _ _ _ Hup).
  - unfold JsonFormGenerator. simpl. by rewrite Hfalsy.
  - intros newValue path h'. unfold handleFormChange. simpl. by rewrite Hfalsy.
Qed.

Lemma falsy_edit_of_scalar_root_ends_form_witness :
  scalar (formData parsed_five)
  ∧ truthy (formData parsed_five) = true
  ∧ reports (RenderForm [] {| value_of := formData parsed_five; path_of := "root" |})
            (VNum Js.zero, "root")
  ∧ truthy (VNum Js.zero) = false
  ∧ handleFormChange parsed_five (VNum Js.zero) "root" []
    = Returned (setFormData (VNum Js.zero) parsed_five) []
  ∧ preview (JsonFormGenerator (setFormData (VNum Js.zero) parsed_five))
    = inl (VNum Js.zero)
  ∧ ∀ newValue path h',
      handleFormChange (setFormData (VNum Js.zero) parsed_five) newValue path h'
      = Returned (setFormData (VNum Js.zero) parsed_five) h'.
Proof.
  assert (H1 : scalar (formData parsed_five)) by exact I.
  assert (H2 : truthy (formData parsed_five) = true) by reflexivity.
  assert (H3 : reports (RenderForm [] {| value_of := formData parsed_five;
                                         path_of := "root" |})
                       (VNum Js.zero, "root"))
    by (exists "abc"; reflexivity).
  assert (H4 : truthy (VNum Js.zero) = false) by reflexivity.
  split; [exact H1 | split; [exact H2 | split; [exact H3 | split; [exact H4 |]]]].
  exact (falsy_edit_of_scalar_root_ends_form parsed_five [] (VNum Js.zero, "root")
           H1 H2 H3 H4).
Defined.

(** ** Sessions *)

Lemma step_keeps_exclusion JSON_parse st ev h st' h' :
  (error st = None ∨ formData st = VNull) →
  step JSON_parse st ev h = Returned st' h' →
  error st' = None ∨ formData st' = VNull.
Proof.
  intros Hinv. destruct ev as [text | | newValue path |]; simpl.
  - by intros [= <- <-].
  - unfold handleParseJson. destruct (JSON_parse (jsonString st) h) as [v h1|err].
    + intros [= <- <-]. by left.
    + intros [= <- <-]. by right.
  - unfold handleFormChange. destruct (truthy (formData st)) eqn:Ht.
    + destruct Hinv as [Herr | Hnull]; [|by rewrite Hnull in Ht].
      unfold mbind, M_bind.
      destruct (updateNested (formData st) path newValue h) as [r h1|]; [|done].
      intros [= <- <-]. by left.
    + by intros [= <- <-].
  - by intros [= <- <-].
Qed.

Lemma run_keeps_exclusion JSON_parse events st h st' h' :
  (error st = None ∨ formData st = VNull) →
  run JSON_parse events st h = Returned st' h' →
  error st' = None ∨ formData st' = VNull.
Proof.
  revert st h. induction events as [|ev rest IH]; intros st h Hinv; simpl.
  - by intros [= <- <-].
  - unfold mbind, M_bind.
    destruct (step JSON_parse st ev h) as [st1 h1|] eqn:Hstep; [|done].
    apply IH. by eapply step_keeps_exclusion.
Qed.

(** X9.  In every state the page reaches from its initial state, by any
    events and with any parser, an error is set only when the form data
    is [null]: the page never shows the alert and the form together. *)
Theorem alert_and_form_never_together JSON_parse events h st' h' :
  run JSON_parse events initial h = Returned st' h' →
  (error st' = None ∨ formData st' = VNull)
  ∧ (alert (JsonFormGenerator st') = None
     ∨ preview (JsonFormGenerator st') = inl VNull).
Proof.
  intros Hrun.
  assert (Hinv : error st' = None ∨ formData st' = VNull).
  { eapply run_keeps_exclusion; [|exact Hrun]. by left. }
  split; [exact Hinv |]. unfold JsonFormGenerator. simpl.
  destruct Hinv as [-> | ->]; [by left | by right].
Qed.

Lemma alert_and_form_never_together_witness :
  run rejecting [Typed "{invalid"; ParseClicked] initial []
  = Returned {| jsonString := "{invalid"; formData := VNull;
                error := Some "Invalid JSON: Expected property name or '}' in JSON at position 1" |} []
  ∧ alert (JsonFormGenerator
             {| jsonString := "{invalid"; formData := VNull;
                error := Some "Invalid JSON: Expected property name or '}' in JSON at position 1" |})
    = Some "Invalid JSON: Expected property name or '}' in JSON at position 1"
  ∧ preview (JsonFormGenerator
               {| jsonString := "{invalid"; formData := VNull;
                  error := Some "Invalid JSON: Expected property name or '}' in JSON at position 1" |})
    = inl VNull.
Proof.
  assert (H1 : run rejecting [Typed "{invalid"; ParseClicked] initial []
    = Returned {| jsonString := "{invalid"; formData := VNull;
                  error := Some "Invalid JSON: Expected property name or '}' in JSON at position 1" |} [])
    by reflexivity.
  split; [exact H1 | split; [reflexivity |]].
  destruct (alert_and_form_never_together rejecting _ _ _ _ H1) as [_ [Halert | Hpreview]].
  - discriminate Halert.
  - exact Hpreview.
Defined.

Lemma step_extends JSON_parse st ev h :
  parser_ok JSON_parse → reports_scalar ev →
  closed h → value_in (length h) (formData st) →
  ∃ st' k,
    step JSON_parse st ev h = Returned st' (h ++ k)
    ∧ closed (h ++ k) ∧ value_in (length (h ++ k)) (formData st').
Proof.
  intros Hparser Hev Hh Hdata. destruct ev as [text | | newValue path |]; simpl.
  - exists (setJsonString text st), []. by rewrite app_nil_r.
  - unfold handleParseJson. specialize (Hparser (jsonString st) h Hh).
    destruct (JSON_parse (jsonString st) h) as [v h1|err].
    + destruct Hparser as ([k ->] & Hclosed & Hv). by eexists _, k.
    + eexists _, []. by rewrite app_nil_r.
  - unfold handleFormChange. destruct (truthy (formData st)).
    + destruct (updateNested_returns h (formData st) path newValue Hh Hdata)
        as (r & k & Hrun & Hk & Hr); [by destruct newValue |].
      exists (setFormData r st), k. by rewrite (bind_returned _ _ _ _ _ Hrun).
    + exists st, []. by rewrite app_nil_r.
  - exists st, []. by rewrite app_nil_r.
Qed.

Lemma small_parse_ok : parser_ok small_parse.
Proof.
  intros text h Hh. unfold small_parse.
  destruct (String.eqb text "[]").
  - simpl. split; [by eexists |]. split.
    + apply closed_snoc; [done |]. by split; constructor.
    + rewrite length_snoc. simpl. lia.
  - destruct (String.eqb text "5"); [|done].
    simpl. split; [exists []; by rewrite app_nil_r | done].
Qed.

(** X10.  With a parser that returns well-formed values, every sequence
    of events runs to its end, no handler throws, and the store at the
    end is the store at the start followed by new objects: no object is
    changed once it exists. *)
Theorem session_runs_and_only_extends_store JSON_parse events st h :
  parser_ok JSON_parse → Forall reports_scalar events →
  closed h → value_in (length h) (formData st) →
  ∃ st' k,
    run JSON_parse events st h = Returned st' (h ++ k)
    ∧ closed (h ++ k) ∧ value_in (length (h ++ k)) (formData st').
Proof.
  intros Hparser Hevents. revert st h.
  induction Hevents as [|ev rest Hev _ IH]; intros st h Hh Hdata.
  - exists st, []. by rewrite app_nil_r.
  - destruct (step_extends JSON_parse st ev h Hparser Hev Hh Hdata)
      as (st1 & k1 & Hstep & Hk1 & Hdata1).
    destruct (IH st1 (h ++ k1) Hk1 Hdata1) as (st' & k & Hrun & Hk & Hdata').
    exists st', (k1 ++ k). rewrite app_assoc. split; [|done].
    simpl. by rewrite (bind_returned _ _ _ _ _ Hstep).
Qed.

Lemma session_runs_and_only_extends_store_witness :
  parser_ok small_parse
  ∧ Forall reports_scalar
      [Typed "[]"; ParseClicked; Changed (VStr "x") "root[0]"; OutputClicked]
  ∧ closed [] ∧ value_in (length ([] : list object)) (formData initial)
  ∧ ∃ st' k,
      run small_parse
        [Typed "[]"; ParseClicked; Changed (VStr "x") "root[0]"; OutputClicked]
        initial [] = Returned st' ([] ++ k)
      ∧ closed ([] ++ k) ∧ value_in (length ([] ++ k)) (formData st').
Proof.
  assert (H1 : parser_ok small_parse) by exact small_parse_ok.
  assert (H2 : Forall reports_scalar
                 [Typed "[]"; ParseClicked; Changed (VStr "x") "root[0]"; OutputClicked])
    by (repeat constructor).
  assert (H3 : closed []) by constructor.
  assert (H4 : value_in (length ([] : list object)) (formData initial)) by exact I.
  split; [exact H1 | split; [exact H2 | split; [exact H3 | split; [exact H4 |]]]].
  exact (session_runs_and_only_extends_store small_parse _ initial [] H1 H2 H3 H4).
Defined.


(** ** Writes by index *)

Lemma store_elem_lookup_other {A : Type} i j (a : A) es :
  j ≠ i →
  store_elem i a es !! j
  = if decide (j < length es) then es !! j
    else if decide (j < i) then Some None else None.
Proof.
  intros Hji. unfold store_elem. case_decide as Hi.
  - rewrite list_lookup_insert_ne by done.
    case_decide; [done |]. case_decide; [lia |]. apply lookup_ge_None. lia.
  - case_decide as Hj; [by rewrite lookup_app_l |].
    rewrite lookup_app_r by lia. case_decide as Hlt.
    + rewrite lookup_app_l by (rewrite length_replicate; lia).
      apply lookup_replicate_2. lia.
    + apply lookup_ge_None. rewrite length_app, length_replicate. simpl. lia.
Qed.

(** X11.  A path of one token that reads as an index, on a sequence:
    the update returns a new sequence with the new value at that index;
    the other elements are those of the original, a hole read as
    [undefined]; past the end the sequence grows and the gap is left as
    holes. *)
Theorem index_write_on_sequence h l es ex p token i val :
  h !! l = Some (Arr es ex) →
  Js.split p = [token] →
  Js.parseInt (Js.replace_bracket token) = Some (Z.of_nat i) →
  (N.of_nat i < 4294967295)%N →
  ∃ es',
    updateNested (VRef l) p val h
    = Returned (VRef (length h)) (h ++ [Arr es' []])
    ∧ length es' = max (length es) (S i)
    ∧ es' !! i = Some (Some val)
    ∧ (∀ j, j ≠ i → j < length es →
         es' !! j = Some (Some (default VUndefined (mjoin (es !! j)))))
    ∧ (∀ j, length es ≤ j < i → es' !! j = Some None).
Proof.
  intros Hl Hp Hi Hlt.
  exists (store_elem i val ((λ e, Some (default VUndefined e)) <$> es)).
  split; [by eapply updateNested_one_token_on_sequence |].
  split; [by rewrite store_elem_length, length_fmap |].
  split; [apply store_elem_lookup |]. split.
  - intros j Hji Hj. rewrite store_elem_lookup_other by done.
    rewrite length_fmap. case_decide; [|lia].
    rewrite list_lookup_fmap.
    destruct (lookup_lt_is_Some_2 es j Hj) as [e ->]. done.
  - intros j [Hj1 Hj2]. rewrite store_elem_lookup_other by lia.
    rewrite length_fmap. case_decide; [lia |]. case_decide; [done | lia].
Qed.

Lemma index_write_on_sequence_witness :
  store_arr !! 0 = Some (Arr [Some (VStr "a"); Some (VStr "b")] [])
  ∧ Js.split "5" = ["5"]
  ∧ Js.parseInt (Js.replace_bracket "5") = Some (Z.of_nat 5)
  ∧ (N.of_nat 5 < 4294967295)%N
  ∧ ∃ es',
      updateNested (VRef 0) "5" (VStr "z") store_arr
      = Returned (VRef (length store_arr)) (store_arr ++ [Arr es' []])
      ∧ length es' = max 2 6
      ∧ es' !! 5 = Some (Some (VStr "z"))
      ∧ (∀ j, j ≠ 5 → j < 2 →
           es' !! j
           = Some (Some (default VUndefined
                           (mjoin ([Some (VStr "a"); Some (VStr "b")] !! j)))))
      ∧ (∀ j, 2 ≤ j < 5 → es' !! j = Some None).
Proof.
  assert (H1 : store_arr !! 0 = Some (Arr [Some (VStr "a"); Some (VStr "b")] []))
    by reflexivity.
  assert (H2 : Js.split "5" = ["5"]) by reflexivity.
  assert (H3 : Js.parseInt (Js.replace_bracket "5") = Some (Z.of_nat 5)) by reflexivity.
  assert (H4 : (N.of_nat 5 < 4294967295)%N) by reflexivity.
  split; [exact H1 | split; [exact H2 | split; [exact H3 | split; [exact H4 |]]]].
  exact (index_write_on_sequence store_arr 0 _ _ "5" "5" 5 (VStr "z") H1 H2 H3 H4).
Defined.

(** ** The parse action, numerals, sequences *)

(** X12.  The parse action does not look at the form data or at the
    error it finds: two states with the same text are left in the same
    state, so a parse discards every edit made before it. *)
Theorem parse_forgets_previous_state JSON_parse st1 st2 h :
  jsonString st1 = jsonString st2 →
  handleParseJson JSON_parse st1 h = handleParseJson JSON_parse st2 h.
Proof.
  intros Htext. unfold handleParseJson. rewrite Htext.
  destruct (JSON_parse (jsonString st2) h); unfold setError, setFormData; simpl;
    by rewrite Htext.
Qed.

Lemma parse_forgets_previous_state_witness :
  jsonString edited = jsonString (setFormData VNull edited)
  ∧ handleParseJson rejecting edited store_ab
    = handleParseJson rejecting (setFormData VNull edited) store_ab.
Proof.
  assert (H1 : jsonString edited = jsonString (setFormData VNull edited))
    by reflexivity.
  split; [exact H1 |].
  exact (parse_forgets_previous_state rejecting edited _ store_ab H1).
Defined.

Lemma read_digits_dec n : Js.read_digits 10 (Js.dec n) 0 false = Some n.
Proof.
  unfold Js.dec, NilZero.string_of_uint.
  rewrite <- (DecimalN.Unsigned.of_to n) at 2. unfold N.of_uint.
  destruct (N.to_uint n) eqn:E;
    try (apply read_digits_uint; by left).
  destruct n; [discriminate E | by apply DecimalPos.Unsigned.to_uint_nonnil in E].
Qed.

Lemma take_digits_all s acc count :
  all_chars Js.is_digit s = true →
  ∃ v, Js.take_digits s acc count = (v, count + String.length s, "")
       ∧ Js.read_digits 10 s acc true = Some v.
Proof.
  revert acc count. induction s as [|c r IH]; intros acc count; simpl.
  - intros _. exists acc. split; [f_equal; f_equal; lia | done].
  - intros [Hc Hr]%andb_true_iff. rewrite Hc.
    destruct (IH (acc * 10 + Js.digit_value c)%N (S count) Hr) as (v & Htake & Hread).
    exists v. split.
    + rewrite Htake. f_equal. f_equal. lia.
    + destruct (is_digit_facts c Hc) as (_ & _ & _ & Hhex & Hlt & _).
      rewrite Hhex. by apply N.ltb_lt in Hlt as ->.
Qed.

Lemma shr_1_nonneg mrs : (0 ≤ shr_m mrs)%Z → (0 ≤ shr_m (shr_1 mrs))%Z.
Proof. destruct mrs as [[|[]|[]] r s]; simpl; lia. Qed.

Lemma iter_shr_1_nonneg p mrs :
  (0 ≤ shr_m mrs)%Z → (0 ≤ shr_m (SpecFloat.iter_pos shr_1 p mrs))%Z.
Proof.
  revert mrs. induction p as [p IH|p IH|]; intros mrs H; simpl.
  - by apply IH, IH, shr_1_nonneg.
  - by apply IH, IH.
  - by apply shr_1_nonneg.
Qed.

Lemma shr_fexp_nonneg prec emax m e l :
  (0 ≤ m)%Z → (0 ≤ shr_m (shr_fexp prec emax m e l).1)%Z.
Proof.
  intros Hm. unfold shr_fexp, shr.
  assert (H0 : (0 ≤ shr_m (shr_record_of_loc m l))%Z) by by destruct l as [|[]].
  destruct (_ - e)%Z; simpl; [done | by apply iter_shr_1_nonneg | done].
Qed.

(** Rounding a positive integer never gives NaN nor a negative zero. *)
Lemma binary_round_positive prec emax p e :
  match binary_round prec emax false p e with
  | S754_nan | S754_zero true => False
  | _ => True
  end.
Proof.
  unfold binary_round. destruct (shl_align p e _) as [mz ez].
  unfold binary_round_aux.
  pose proof (shr_fexp_nonneg prec emax (Z.pos mz) ez loc_Exact) as H1.
  destruct (shr_fexp prec emax (Z.pos mz) ez loc_Exact) as [mrs' e'].
  simpl in H1. specialize (H1 ltac:(lia)).
  set (m1 := round_nearest_even (shr_m mrs') (loc_of_shr_record mrs')).
  assert (Hm1 : (0 ≤ m1)%Z).
  { subst m1. unfold round_nearest_even.
    destruct (loc_of_shr_record mrs') as [|[]]; try done.
    - destruct (Z.even (shr_m mrs')); lia.
    - lia. }
  pose proof (shr_fexp_nonneg prec emax m1 e' loc_Exact Hm1) as H2.
  destruct (shr_fexp prec emax m1 e' loc_Exact) as [mrs'' e''].
  simpl in H2. destruct (shr_m mrs'') as [|q|q]; [done | | lia].
  by destruct (_ <=? _)%Z.
Qed.

(** [parseFloat] reads a decimal numeral as the number nearest to it. *)
Lemma parseFloat_dec n : Js.parseFloat (Js.dec n) = Js.of_Z (Z.of_N n).
Proof.
  pose proof (dec_digits n) as Hdigits.
  pose proof (read_digits_dec n) as Hread.
  destruct (take_digits_all (Js.dec n) 0 0 Hdigits) as (v & Htake & Hread').
  destruct (Js.dec n) as [|c r] eqn:E; [discriminate Hread |].
  assert (Hc : Js.is_digit c = true) by (simpl in Hdigits; by apply andb_true_iff in Hdigits as [? _]).
  rewrite read_digits_step in Hread by done.
  rewrite read_digits_step in Hread' by done.
  assert (v = n) by congruence. subst v.
  unfold Js.parseFloat.
  destruct (is_digit_facts c Hc) as (Hspace & _ & _ & _ & _ & Hsign).
  cbn [Js.trim_start]. rewrite Hspace.
  assert (Hs : Js.strip_sign (String c r) = (false, String c r)).
  { revert Hsign. destruct c as [[] [] [] [] [] [] [] []]; try done. }
  rewrite Hs.
  assert (Hinf : String.prefix "Infinity" (String c r) = false).
  { revert Hc. clear. destruct c as [[] [] [] [] [] [] [] []]; try done. }
  rewrite Hinf, Htake. simpl String.length. simpl.
  unfold Js.of_decimal, Js.of_Z. destruct n as [|p]; [done |].
  simpl. by rewrite Pos.mul_1_r.
Qed.

(** X13.  A numeric field whose input is the decimal numeral of a
    natural number reports the binary64 number nearest to it, whatever
    the field showed. *)
Theorem number_field_reads_numeral h shown path n :
  ∃ onChange,
    RenderForm h {| value_of := VNum shown; path_of := path |}
    = NumberControl path shown onChange
    ∧ onChange (Js.dec n) = (VNum (Js.of_Z (Z.of_N n)), path).
Proof.
  eexists. split; [reflexivity |].
  unfold updateValue, or_else. rewrite parseFloat_dec. f_equal.
  destruct n as [|p]; [done |].
  unfold Js.of_Z, binary_normalize. simpl Z.of_N.
  pose proof (binary_round_positive Js.prec Js.emax p 0) as H.
  by destruct (binary_round Js.prec Js.emax false p 0) as [[]|[]| |[] ? ?].
Qed.





